(** * hashstructure: a shallow embedding of the hashing walker

    The repository ships several revisions of [hashstructure.go].  Each one
    is embedded in a module of its own:

    - [LoopOrder]  : src/hashstructure.go   (map keys ordered inside [visit],
                                             restarting the scan on a collision)
    - [SortOrder]  : src/unnamed/part_001   (map keys ordered by [sortValues])
    - [XorTags]    : src/unnamed/part_000   (second revision in that file: maps
                                             folded with XOR, [hash:"ignore"])
    - [FieldPolicy]: the [hash:"string"] directive, of which only the error
                     type (src/include.go) is part of the sources.

    The first revision in src/unnamed/part_000 (maps walked in the order
    of [MapKeys], no pointers, no booleans) is the common ancestor of the
    three and is not embedded.

    Everything the revisions share (the reflected values, [binary.Write],
    the two digests of Go's standard library) comes first. *)

From Stdlib Require Import ZArith List Strings.String Strings.Ascii Lia.
From stdpp Require Import base list gmap sorting strings.

Open Scope Z_scope.

(** ** Bytes and 64-bit words *)

(** A byte is a [Z] in [0, 256); a [uint64] is a [Z] in [0, 2^64). *)
Definition wrap64 (z : Z) : Z := z mod 2 ^ 64.

(** [[]byte(s)]: a Go string is its byte sequence. *)
Definition bytes_of_string (s : string) : list Z :=
  map (fun a => Z.of_N (N_of_ascii a)) (list_ascii_of_string s).

(** Little-endian encoding of the low [n] bytes of [z]; a negative [z] is
    read in two's complement, as [Z.land] and [Z.shiftr] do. *)
Definition le_bytes (n : nat) (z : Z) : list Z :=
  map (fun i => Z.land (Z.shiftr z (8 * Z.of_nat i)) 255) (seq 0 n).

(** ** hash.Hash64 *)

(** The interface the walker writes to.  [Reset] puts the hasher back into
    the state [New] created it in (the contract of [hash.Hash]); [Write]
    never fails. *)
Record Hash64 : Type := mkHash64 {
  hstate : Type;
  hNew   : hstate;
  hWrite : hstate -> list Z -> hstate;
  hSum64 : hstate -> Z
}.

(** [hash/crc64] with the ECMA polynomial, the default of [Hash]. *)
Module crc64.

Definition ECMA : Z := 0xC96C5795D7870F42.

(** [MakeTable]: entry [i] of the table, eight shift steps. *)
Fixpoint table_step (n : nat) (crc : Z) : Z :=
  match n with
  | O => crc
  | S n' =>
      table_step n'
        (if Z.testbit crc 0
         then Z.lxor (Z.shiftr crc 1) ECMA
         else Z.shiftr crc 1)
  end.

Definition MakeTable (i : Z) : Z := table_step 8 i.

Definition not64 (z : Z) : Z := Z.lxor z (2 ^ 64 - 1).

(** [update]: crc = ^crc; crc = tab[byte(crc)^v] ^ (crc >> 8); return ^crc *)
Definition update (crc : Z) (p : list Z) : Z :=
  not64 (fold_left
           (fun c v => Z.lxor (MakeTable (Z.lxor (Z.land c 255) v)) (Z.shiftr c 8))
           p (not64 crc)).

Definition New : Hash64 :=
  {| hstate := Z; hNew := 0; hWrite := update; hSum64 := fun crc => crc |}.

End crc64.

(** [hash/fnv], [New64]: 64-bit FNV-1, the fallback digest. *)
Module fnv.

Definition offset64 : Z := 14695981039346656037.
Definition prime64 : Z := 1099511628211.

Definition write (h : Z) (p : list Z) : Z :=
  fold_left (fun h c => Z.lxor (wrap64 (h * prime64)) c) p h.

Definition New64 : Hash64 :=
  {| hstate := Z; hNew := offset64; hWrite := write; hSum64 := fun h => h |}.

End fnv.

(** ** reflect: kinds and values *)

Module reflect.

Inductive Kind : Set :=
| Invalid | Bool
| Int | Int8 | Int16 | Int32 | Int64
| Uint | Uint8 | Uint16 | Uint32 | Uint64 | Uintptr
| Float32 | Float64 | Complex64 | Complex128
| Array | Chan | Func | Interface | Map | Ptr | Slice | String | Struct
| UnsafePointer.

(** The numeric value of a kind, in declaration order. *)
Definition ord (k : Kind) : Z :=
  match k with
  | Invalid => 0 | Bool => 1
  | Int => 2 | Int8 => 3 | Int16 => 4 | Int32 => 5 | Int64 => 6
  | Uint => 7 | Uint8 => 8 | Uint16 => 9 | Uint32 => 10 | Uint64 => 11
  | Uintptr => 12
  | Float32 => 13 | Float64 => 14 | Complex64 => 15 | Complex128 => 16
  | Array => 17 | Chan => 18 | Func => 19 | Interface => 20 | Map => 21
  | Ptr => 22 | Slice => 23 | String => 24 | Struct => 25
  | UnsafePointer => 26
  end.

End reflect.

(** Width of an integer type: [int]/[uint] or one of the sized types. *)
Inductive Width : Set := WNative | W8 | W16 | W32 | W64.

(** [reflect.StructField], and what [CanSet] answers on the field's value
    (false whenever the struct was not reached through a pointer, and for
    every unexported field). *)
Record StructField : Type := mkField {
  Name   : string;
  Tag    : list (string * string);
  CanSet : bool
}.

(** [StructTag.Get]: the value stored under [key], or the empty string. *)
Fixpoint Tag_Get (tag : list (string * string)) (key : string) : string :=
  match tag with
  | [] => EmptyString
  | (k, v) :: tag' => if String.eqb k key then v else Tag_Get tag' key
  end.

(** A [reflect.Value].  Integers carry their mathematical value, floats
    their IEEE-754 bit pattern (what [binary.Write] writes).  A map lists
    its entries in the order [MapKeys] returns the keys; a struct carries
    the name of its type and its fields in declaration order.  [VNil] is
    the zero [reflect.Value]; a nil interface is [VIface VNil], a nil
    pointer [VPtr VNil].  Values are finite trees (no pointer cycles), and
    [Interface] is allowed on them (no sized number sits in an unexported
    field, where [v.Interface()] panics). *)
#[local] Unset Elimination Schemes.
Inductive Value : Type :=
| VNil
| VBool (b : bool)
| VInt (w : Width) (n : Z)
| VUint (w : Width) (n : Z)
| VUintptr (n : Z)
| VFloat32 (bits : Z)
| VFloat64 (bits : Z)
| VComplex64 (re im : Z)
| VComplex128 (re im : Z)
| VArray (elems : list Value)
| VChan
| VFunc
| VIface (elem : Value)
| VMap (entries : list (Value * Value))
| VPtr (elem : Value)
| VSlice (elems : list Value)
| VString (s : string)
| VStruct (tname : string) (fields : list (StructField * Value))
| VUnsafePointer.
#[local] Set Elimination Schemes.

Definition Kind_of (v : Value) : reflect.Kind :=
  match v with
  | VNil => reflect.Invalid
  | VBool _ => reflect.Bool
  | VInt WNative _ => reflect.Int
  | VInt W8 _ => reflect.Int8
  | VInt W16 _ => reflect.Int16
  | VInt W32 _ => reflect.Int32
  | VInt W64 _ => reflect.Int64
  | VUint WNative _ => reflect.Uint
  | VUint W8 _ => reflect.Uint8
  | VUint W16 _ => reflect.Uint16
  | VUint W32 _ => reflect.Uint32
  | VUint W64 _ => reflect.Uint64
  | VUintptr _ => reflect.Uintptr
  | VFloat32 _ => reflect.Float32
  | VFloat64 _ => reflect.Float64
  | VComplex64 _ _ => reflect.Complex64
  | VComplex128 _ _ => reflect.Complex128
  | VArray _ => reflect.Array
  | VChan => reflect.Chan
  | VFunc => reflect.Func
  | VIface _ => reflect.Interface
  | VMap _ => reflect.Map
  | VPtr _ => reflect.Ptr
  | VSlice _ => reflect.Slice
  | VString _ => reflect.String
  | VStruct _ _ => reflect.Struct
  | VUnsafePointer => reflect.UnsafePointer
  end.

(** [v.Interface()]: the value itself, or what the interface holds. *)
Definition Interface (v : Value) : Value :=
  match v with
  | VIface e => e
  | _ => v
  end.

(** ** Errors and results *)

(** src/include.go: "ErrNotStringer is returned when there's an error with
    hash:string". *)
Record ErrNotStringer : Type := mkErrNotStringer { Field : string }.

(** The double quote of the message, as a one-character string. *)
Definition dquote : string := String "034"%char EmptyString.

(** [func (ens *ErrNotStringer) Error() string] *)
Definition ErrNotStringer_Error (ens : ErrNotStringer) : string :=
  ("hashstructure: " ++ Field ens ++ " has hash:" ++ dquote ++ "string"
   ++ dquote ++ " set, but does not implement fmt.Stringer")%string.

Inductive error : Type :=
| ErrUnknownKind (k : reflect.Kind)   (* "unknown kind to hash: %s" *)
| ErrCollision (key : Value)          (* "unresolvable hash collision: %#v" *)
| ErrBinaryWrite (k : reflect.Kind)   (* the error of binary.Write *)
| NotStringer (ens : ErrNotStringer)  (* &ErrNotStringer{Field: ...} *)
| ErrHook (msg : string)              (* an error returned by a hook *)
| Panic.                              (* a run-time panic *)

Inductive result (A : Type) : Type :=
| Ok (a : A)
| Err (e : error).
Arguments Ok {A} a.
Arguments Err {A} e.

#[global] Instance result_ret : MRet result := fun _ a => Ok a.
#[global] Instance result_bind : MBind result :=
  fun _ _ f r => match r with Ok a => f a | Err e => Err e end.

(** ** encoding/binary *)

(** [binary.Write(w, binary.LittleEndian, v.Interface())]: the bytes handed
    to [w.Write] in one call.  Only fixed-size data is accepted. *)
Definition binary_Write (v : Value) : result (list Z) :=
  match v with
  | VBool b => Ok [if b then 1 else 0]
  | VInt W8 n | VUint W8 n => Ok (le_bytes 1 n)
  | VInt W16 n | VUint W16 n => Ok (le_bytes 2 n)
  | VInt W32 n | VUint W32 n => Ok (le_bytes 4 n)
  | VInt W64 n | VUint W64 n => Ok (le_bytes 8 n)
  | VFloat32 b => Ok (le_bytes 4 b)
  | VFloat64 b => Ok (le_bytes 8 b)
  | VComplex64 re im => Ok (le_bytes 4 re ++ le_bytes 4 im)
  | VComplex128 re im => Ok (le_bytes 8 re ++ le_bytes 8 im)
  | _ => Err (ErrBinaryWrite (Kind_of v))
  end.

(** ** What all revisions of [visit] share *)

(** "If it is nil, treat it like a zero", then the [switch v.Kind()] that
    turns [int], [uint] and [bool] into sized integers. *)
Definition widen (v : Value) : Value :=
  match v with
  | VNil => VInt W8 0
  | VInt WNative n => VInt W64 n
  | VUint WNative n => VUint W64 n
  | VBool b => VInt W8 (if b then 1 else 0)
  | _ => v
  end.

(** [k >= reflect.Int && k <= reflect.Complex64] *)
Definition numeric (k : reflect.Kind) : bool :=
  (reflect.ord reflect.Int <=? reflect.ord k)
  && (reflect.ord k <=? reflect.ord reflect.Complex64).

Record HashOptions : Type := mkOptions { Hasher : option Hash64 }.

(** The hasher [Hash] ends up with: CRC-64 unless the caller set one. *)
Definition hasher_of (opts : option HashOptions) : Hash64 :=
  match opts with
  | Some {| Hasher := Some h |} => h
  | _ => crc64.New
  end.

(** The frame of [Hash]: reset the hasher, walk, return [Sum64]. *)
Definition sum_walk (H : Hash64) (walk : hstate H -> result (hstate H))
  : result Z :=
  w ← walk (hNew H); Ok (hSum64 H w).

(** [sort.Sort(uint64Slice(ks))]: ascending order. *)
Definition sort_uint64 (ks : list Z) : list Z := merge_sort Z.le ks.

(** ** src/hashstructure.go *)

Module LoopOrder.

(** A map entry as the walker meets it: the key, what the two calls
    [Hash(k.Interface(), &HashOptions{Hasher: hasher})] return for it
    (with [hasher] nil, hence CRC-64, and with [hasher] the FNV hasher),
    and the walks [w.visit(k)] and [w.visit(v.MapIndex(k))]. *)
Record Entry (H : Hash64) : Type := mkEntry {
  e_key   : Value;
  e_crc   : result Z;
  e_fnv   : result Z;
  e_visit : hstate H -> result (hstate H)
}.
Arguments mkEntry {H} _ _ _ _.
Arguments e_key {H} _.
Arguments e_crc {H} _.
Arguments e_fnv {H} _.
Arguments e_visit {H} _.

(** How one run of the key loop ends: it ran off the end of [keys], or it
    met a collision while [hasher] was still nil. *)
Inductive LoopExit (H : Hash64) : Type :=
| Finished (m : gmap Z (Entry H)) (ks : list Z)
| Collided (m : gmap Z (Entry H)) (ks : list Z).
Arguments Finished {H} m ks.
Arguments Collided {H} m ks.

(** The body of [for i := ...; i < len(keys); i++] from index [i] on, for
    one value of [hasher] ([fallback] tells whether it is the FNV hasher).
    [rest] is [keys[i:]]. *)
Fixpoint keyLoop {H} (fallback : bool) (rest : list (Entry H)) (i : nat)
    (m : gmap Z (Entry H)) (ks : list Z) : result (LoopExit H) :=
  match rest with
  | [] => Ok (Finished m ks)
  | k :: rest' =>
      d ← (if fallback then e_fnv k else e_crc k);
      let ks := <[i := d]> ks in
      match m !! d with
      | Some _ =>
          if fallback then Err (ErrCollision (Interface (e_key k)))
          else Ok (Collided m ks)
      | None => keyLoop fallback rest' (S i) (<[d := k]> m) ks
      end
  end.

(** The whole loop.  On the first collision [hasher] becomes the FNV
    hasher and [i = 0; continue] hands control to the post statement
    [i++]: the scan resumes at index 1, with [m] and [ks] as they are.
    A second collision returns the error, so there is no further run. *)
Definition orderKeys {H} (keys : list (Entry H))
  : result (gmap Z (Entry H) * list Z) :=
  r ← keyLoop false keys 0%nat ∅ (replicate (length keys) 0);
  match r with
  | Finished m ks => Ok (m, ks)
  | Collided m ks =>
      r' ← keyLoop true (drop 1 keys) 1%nat m ks;
      match r' with
      | Finished m ks | Collided m ks => Ok (m, ks)
      end
  end.

(** "Go through the sorted keys and hash" *)
Fixpoint walkSorted {H} (m : gmap Z (Entry H)) (ks : list Z)
    (w : hstate H) : result (hstate H) :=
  match ks with
  | [] => Ok w
  | hashKey :: ks' =>
      match m !! hashKey with
      | Some k => w ← e_visit k w; walkSorted m ks' w
      | None => Err Panic
      end
  end.

Definition visitMap {H} (keys : list (Entry H)) (w : hstate H)
  : result (hstate H) :=
  '(m, ks) ← orderKeys keys;
  walkSorted m (sort_uint64 ks) w.

Fixpoint visit (H : Hash64) (v : Value) (w : hstate H) {struct v}
  : result (hstate H) :=
  match v with
  | VIface e | VPtr e => visit H e w
  | _ =>
      let v' := widen v in
      let k := Kind_of v' in
      if numeric k then
        bs ← binary_Write v'; Ok (hWrite H w bs)
      else
        match v with
        | VArray es | VSlice es =>
            (fix elems (es : list Value) (w : hstate H) :=
               match es with
               | [] => Ok w
               | e :: es' => w ← visit H e w; elems es' w
               end) es w
        | VMap kvs =>
            visitMap
              (map (fun kv : Value * Value =>
                      mkEntry (fst kv)
                        (sum_walk crc64.New (visit crc64.New (fst kv)))
                        (sum_walk fnv.New64 (visit fnv.New64 (fst kv)))
                        (fun w => w ← visit H (fst kv) w; visit H (snd kv) w))
                   kvs) w
        | VStruct _ fs =>
            (fix fields (fs : list (StructField * Value)) (w : hstate H) :=
               match fs with
               | [] => Ok w
               | (f, x) :: fs' =>
                   if CanSet f || negb (String.eqb (Name f) "_") then
                     w ← visit H x w; fields fs' w
                   else fields fs' w
               end) fs w
        | VString s => Ok (hWrite H w (bytes_of_string s))
        | _ => Err (ErrUnknownKind k)
        end
  end.

Definition Hash (v : Value) (opts : option HashOptions) : result Z :=
  let H := hasher_of opts in sum_walk H (visit H v).

End LoopOrder.

(** ** src/unnamed/part_001 *)

Module SortOrder.

(** A [reflect.Value] handed to [sortValues], with what the two calls of
    [Hash] on it return: [Hash(v.Interface(), nil)] and
    [Hash(vs[c].Interface(), &HashOptions{Hasher: hasher})] with the FNV
    hasher. *)
Record Key : Type := mkKey {
  k_val : Value;
  k_crc : result Z;
  k_fnv : result Z
}.

(** [s[idx]] for an [int] index: out of range is a run-time panic. *)
Definition index {A} (s : list A) (idx : Z) : result A :=
  if idx <? 0 then Err Panic
  else match s !! Z.to_nat idx with
       | Some a => Ok a
       | None => Err Panic
       end.

(** "Get the hash values for all the keys": the first loop of
    [sortValues], from index [i] on ([vs] is what is left to range over).
    [m] maps a digest to the index that owns it, or to -1 once the digest
    was seen twice. *)
Fixpoint scan (vs : list Key) (i : nat) (ks : list Z) (m : gmap Z Z)
    (collision : list Z) : result (list Z * gmap Z Z * list Z) :=
  match vs with
  | [] => Ok (ks, m, collision)
  | v :: vs' =>
      d ← k_crc v;
      let ks := <[i := d]> ks in
      match m !! d with
      | Some j =>
          if 0 <=? j then
            scan vs' (S i) ks (<[d := -1]> m)
                 ((collision ++ [j]) ++ [Z.of_nat i])
          else
            scan vs' (S i) ks m (collision ++ [Z.of_nat i])
      | None => scan vs' (S i) ks (<[d := Z.of_nat i]> m) collision
      end
  end.

(** "If we have any collisions, hash those now using FNV" *)
Fixpoint rehash (vs : list Key) (collision : list Z) (ks : list Z)
    (m : gmap Z Z) : result (list Z * gmap Z Z) :=
  match collision with
  | [] => Ok (ks, m)
  | c :: collision' =>
      v ← index vs c;
      d ← k_fnv v;
      let ks := <[Z.to_nat c := d]> ks in
      match m !! d with
      | Some _ => Err (ErrCollision (Interface (k_val v)))
      | None => rehash vs collision' ks (<[d := c]> m)
      end
  end.

(** The digests [ks] and the table [m] as they are when the keys get
    sorted. *)
Definition digests (vs : list Key) : result (list Z * gmap Z Z) :=
  '(ks, m, collision) ← scan vs 0%nat (replicate (length vs) 0) ∅ [];
  if (0 <? length collision)%nat then rehash vs collision ks m
  else Ok (ks, m).

Definition sortValues (vs : list Key) : result (list Z) :=
  '(ks, m) ← digests vs;
  let ks := sort_uint64 ks in
  Ok (map (fun v => default 0 (m !! v)) ks).

(** A map entry: its key as [sortValues] sees it, and the walk
    [w.visit(k)] followed by [w.visit(v.MapIndex(k))]. *)
Record Entry (H : Hash64) : Type := mkEntry {
  e_key   : Key;
  e_visit : hstate H -> result (hstate H)
}.
Arguments mkEntry {H} _ _.
Arguments e_key {H} _.
Arguments e_visit {H} _.

(** [for _, idx := range idxs] *)
Fixpoint walkIdxs {H} (keys : list (Entry H)) (idxs : list Z)
    (w : hstate H) : result (hstate H) :=
  match idxs with
  | [] => Ok w
  | idx :: idxs' =>
      k ← index keys idx; w ← e_visit k w; walkIdxs keys idxs' w
  end.

Definition visitMap {H} (keys : list (Entry H)) (w : hstate H)
  : result (hstate H) :=
  idxs ← sortValues (map e_key keys);
  walkIdxs keys idxs w.

Fixpoint visit (H : Hash64) (v : Value) (w : hstate H) {struct v}
  : result (hstate H) :=
  match v with
  | VIface e | VPtr e => visit H e w
  | _ =>
      let v' := widen v in
      let k := Kind_of v' in
      if numeric k then
        bs ← binary_Write v'; Ok (hWrite H w bs)
      else
        match v with
        | VArray es | VSlice es =>
            (fix elems (es : list Value) (w : hstate H) :=
               match es with
               | [] => Ok w
               | e :: es' => w ← visit H e w; elems es' w
               end) es w
        | VMap kvs =>
            visitMap
              (map (fun kv : Value * Value =>
                      mkEntry
                        (mkKey (fst kv)
                           (sum_walk crc64.New (visit crc64.New (fst kv)))
                           (sum_walk fnv.New64 (visit fnv.New64 (fst kv))))
                        (fun w => w ← visit H (fst kv) w; visit H (snd kv) w))
                   kvs) w
        | VStruct _ fs =>
            (fix fields (fs : list (StructField * Value)) (w : hstate H) :=
               match fs with
               | [] => Ok w
               | (f, x) :: fs' =>
                   if CanSet f || negb (String.eqb (Name f) "_") then
                     w ← visit H x w; fields fs' w
                   else fields fs' w
               end) fs w
        | VString s => Ok (hWrite H w (bytes_of_string s))
        | _ => Err (ErrUnknownKind k)
        end
  end.

Definition Hash (v : Value) (opts : option HashOptions) : result Z :=
  let H := hasher_of opts in sum_walk H (visit H v).

(** The keys of a map as [visit] passes them to [sortValues]. *)
Definition keyOf (k : Value) : Key :=
  mkKey k (Hash k None) (Hash k (Some (mkOptions (Some fnv.New64)))).

(** The order in which the entries of a map get visited. *)
Definition keyOrder (kvs : list (Value * Value)) : result (list Z) :=
  sortValues (map (fun kv => keyOf (fst kv)) kvs).

(** The entries of a map for a walker that writes to [H]. *)
Definition entries (H : Hash64) (kvs : list (Value * Value))
  : list (Entry H) :=
  map (fun kv : Value * Value =>
         mkEntry (keyOf (fst kv))
           (fun w => w ← visit H (fst kv) w; visit H (snd kv) w)) kvs.

End SortOrder.

(** ** src/unnamed/part_000, second revision *)

Module XorTags.

Record HashOptions : Type := mkOptions {
  Hasher  : option Hash64;
  TagName : string
}.

Definition hasher_of (opts : option HashOptions) : Hash64 :=
  match opts with
  | Some {| Hasher := Some h |} => h
  | _ => crc64.New
  end.

(** [if opts.TagName == "" { opts.TagName = "hash" }] *)
Definition tag_of (opts : option HashOptions) : string :=
  match opts with
  | Some o => if String.eqb (TagName o) "" then "hash" else TagName o
  | None => "hash"
  end.

(** [walker] is the pair of [H] with its state [w], and [tag]. *)
Fixpoint visit (H : Hash64) (tag : string) (v : Value) (w : hstate H)
    {struct v} : result (hstate H) :=
  match v with
  | VIface e | VPtr e => visit H tag e w
  | _ =>
      let v' := widen v in
      let k := Kind_of v' in
      if numeric k then
        bs ← binary_Write v'; Ok (hWrite H w bs)
      else
        match v with
        | VArray es | VSlice es =>
            (fix elems (es : list Value) (w : hstate H) :=
               match es with
               | [] => Ok w
               | e :: es' => w ← visit H tag e w; elems es' w
               end) es w
        | VMap kvs =>
            h ← (fix entries (kvs : list (Value * Value)) (h : Z) :=
                   match kvs with
                   | [] => Ok h
                   | (k, x) :: kvs' =>
                       kh ← sum_walk crc64.New (visit crc64.New "hash" k);
                       vh ← sum_walk crc64.New (visit crc64.New "hash" x);
                       entries kvs' (Z.lxor (Z.lxor h kh) vh)
                   end) kvs 0;
            Ok (hWrite H w (le_bytes 8 h))
        | VStruct _ fs =>
            (fix fields (fs : list (StructField * Value)) (w : hstate H) :=
               match fs with
               | [] => Ok w
               | (f, x) :: fs' =>
                   if CanSet f || negb (String.eqb (Name f) "_") then
                     if String.eqb (Tag_Get (Tag f) tag) "ignore"
                     then fields fs' w
                     else w ← visit H tag x w; fields fs' w
                   else fields fs' w
               end) fs w
        | VString s => Ok (hWrite H w (bytes_of_string s))
        | _ => Err (ErrUnknownKind k)
        end
  end.

Definition Hash (v : Value) (opts : option HashOptions) : result Z :=
  let H := hasher_of opts in sum_walk H (visit H (tag_of opts) v).

End XorTags.

(** ** The field policy of the later revisions *)

Module FieldPolicy.

Inductive Directive : Set := DNone | DIgnore | DSet | DString.

(** A field as the introspector yields it: name, value, directive, and
    the answer of the capability query for a textual representation on
    the concrete type of the value ([fmt.Stringer]). *)
Record FieldSpec : Type := mkFieldSpec {
  name      : string;
  value     : Value;
  directive : Directive;
  text      : option string
}.

(** [Include v unordered]: hash [v], as a set when [unordered]. *)
Inductive Decision : Type :=
| Include (v : Value) (unordered : bool)
| Exclude.

(** The [HashInclude(fieldName, fieldValue)] hook of a record type. *)
Abbreviation Includable := (string -> Value -> result bool) (only parsing).

(** Modelled from the spec: [resolve], the field policy of section 4.2.
    The sources hold the error type [ErrNotStringer] only; the code that
    reads the directives [set] and [string] and calls the hooks is not
    among them.  Per the spec: [ignore] excludes; [set] includes the value
    for unordered treatment; [string] includes the textual representation
    in place of the value and fails with the not-stringer error naming
    the field when the type has none; without a directive the record's
    hook decides, if there is one, and its errors propagate. *)
Definition resolve (hook : option Includable) (f : FieldSpec)
  : result Decision :=
  match directive f with
  | DIgnore => Ok Exclude
  | DSet => Ok (Include (value f) true)
  | DString =>
      match text f with
      | Some s => Ok (Include (VString s) false)
      | None => Err (NotStringer (mkErrNotStringer (name f)))
      end
  | DNone =>
      match hook with
      | None => Ok (Include (value f) false)
      | Some h =>
          h (name f) (value f) ≫= fun b : bool =>
          Ok (if b then Include (value f) false else Exclude)
      end
  end.

(** Modelled from the spec: a sequence under the [set] directive is
    ordered as the keys of a map are (section 4.1), its elements being
    keys without values. *)
Definition visitSet (H : Hash64) (v : Value) (w : hstate H)
  : result (hstate H) :=
  match v with
  | VArray es | VSlice es =>
      SortOrder.visitMap
        (map (fun e => SortOrder.mkEntry (SortOrder.keyOf e)
                         (SortOrder.visit H e)) es) w
  | _ => SortOrder.visit H v w
  end.

(** Modelled from the spec: the fields of a record are resolved and the
    included ones visited in introspection order, the first error
    aborting the walk (sections 4.1 and 7). *)
Definition visitField (H : Hash64) (hook : option Includable)
    (f : FieldSpec) (w : hstate H) : result (hstate H) :=
  d ← resolve hook f;
  match d with
  | Exclude => Ok w
  | Include v true => visitSet H v w
  | Include v false => SortOrder.visit H v w
  end.

Fixpoint visitFields (H : Hash64) (hook : option Includable)
    (fs : list FieldSpec) (w : hstate H) : result (hstate H) :=
  match fs with
  | [] => Ok w
  | f :: fs' => w ← visitField H hook f w; visitFields H hook fs' w
  end.

(** [Hash] on a record given by its hook and fields. *)
Definition Hash (hook : option Includable) (fs : list FieldSpec)
    (opts : option HashOptions) : result Z :=
  let H := hasher_of opts in sum_walk H (visitFields H hook fs).

End FieldPolicy.

(** ** Two observations of one value *)

(** The runtime enumerates the keys of a map in an order of its own at
    every call of [MapKeys].  [same_value v v'] relates two readings of one
    Go value: equal but for the order in which maps, at any depth, list
    their entries. *)
#[local] Unset Elimination Schemes.
Inductive same_value : Value -> Value -> Prop :=
| same_refl v : same_value v v
| same_trans v1 v2 v3 :
    same_value v1 v2 -> same_value v2 v3 -> same_value v1 v3
| same_map_order kvs kvs' :
    Permutation kvs kvs' -> same_value (VMap kvs) (VMap kvs')
| same_map kvs kvs' :
    Forall2 (fun a b => same_value (fst a) (fst b)
                        /\ same_value (snd a) (snd b)) kvs kvs' ->
    same_value (VMap kvs) (VMap kvs')
| same_array es es' :
    Forall2 same_value es es' -> same_value (VArray es) (VArray es')
| same_slice es es' :
    Forall2 same_value es es' -> same_value (VSlice es) (VSlice es')
| same_struct t fs fs' :
    Forall2 (fun a b => fst a = fst b /\ same_value (snd a) (snd b)) fs fs' ->
    same_value (VStruct t fs) (VStruct t fs')
| same_iface v v' : same_value v v' -> same_value (VIface v) (VIface v')
| same_ptr v v' : same_value v v' -> same_value (VPtr v) (VPtr v').
#[local] Set Elimination Schemes.

(** ** Sample values *)

Module Examples.

(** A field of a struct passed by value: not settable, no tag. *)
Definition field (n : string) : StructField := mkField n [] false.

(** [type testFoo struct{ Name string }], [type testBar struct{ Name string }]
    (TestHash_equal). *)
Definition testFoo : Value := VStruct "testFoo" [(field "Name", VString "foo")].
Definition testBar : Value := VStruct "testBar" [(field "Name", VString "foo")].

(** [map[interface{}]string{uint8(1): "x", int8(1): "y"}], its keys
    enumerated in one order and in the other. *)
Definition mixedKeys : list (Value * Value) :=
  [(VIface (VUint W8 1), VString "x"); (VIface (VInt W8 1), VString "y")].
Definition mixedKeys' : list (Value * Value) :=
  [(VIface (VInt W8 1), VString "y"); (VIface (VUint W8 1), VString "x")].

(** [struct{ Name string }{"foo"}] and
    [struct{ Name string; Extra string }{"foo", ""}]. *)
Definition named : Value := VStruct "" [(field "Name", VString "foo")].
Definition namedExtra : Value :=
  VStruct "" [(field "Name", VString "foo"); (field "Extra", VString "")].

(** [[]string{"ab", "c"}] and [[]string{"a", "bc"}]. *)
Definition ab_c : Value := VSlice [VString "ab"; VString "c"].
Definition a_bc : Value := VSlice [VString "a"; VString "bc"].

(** [struct{ Name string; Meta map[interface{}]string }] holding the map
    above, read twice. *)
Definition holder : Value :=
  VStruct "" [(field "Name", VString "n"); (field "Meta", VMap mixedKeys)].
Definition holder' : Value :=
  VStruct "" [(field "Name", VString "n"); (field "Meta", VMap mixedKeys')].


(** A field tagged [hash:"string"] whose type has no [String] method,
    and one whose type has it. *)
Definition plainField : FieldPolicy.FieldSpec :=
  FieldPolicy.mkFieldSpec "Addr" (VInt WNative 7) FieldPolicy.DString None.
Definition stringerField : FieldPolicy.FieldSpec :=
  FieldPolicy.mkFieldSpec "Addr" (VInt WNative 7) FieldPolicy.DString
    (Some "seven").

(** A map with three string keys, the first two of which have one CRC-64
    digest, and the digests of its keys. *)
Definition crcTwins : list (Value * Value) :=
  [(VString "@@@@@@@@@@@@@@@@@", VInt WNative 1);
   (VString "HOKEGDKFFGOC@HJM@", VInt WNative 2);
   (VString "c", VInt WNative 3)].
Definition crcTwinsDigests : list (Z * Z) :=
  [(12068862810561017183, 8283543412451037791);
   (12068862810561017183, 2051720889647129208);
   (14377374713186192222, 12638153115695167420)].

End Examples.

(** ** The ordering of keys, in the words of the spec *)

(** Section 4.3 of the spec, steps 1 to 3.  Each key comes with a pair of
    digests, the tentative one and the fallback one. *)

(** How many keys have the tentative digest [d]. *)
Definition occurrences (d : Z) (cs : list Z) : nat := count_occ Z.eq_dec cs d.

(** "two or more keys share a tentative digest" *)
Definition shared (cs : list Z) (d : Z) : bool :=
  (2 <=? occurrences d cs)%nat.

(** "recompute digests for exactly the colliding keys using the fallback
    accumulator": the digest each key ends up with. *)
Definition settled (dig : list (Z * Z)) : list Z :=
  map (fun d => if shared (map fst dig) (fst d) then snd d else fst d) dig.

(** The code a call returns, whatever the error when there is one. *)
Definition code {A} (r : result A) : option A :=
  match r with Ok a => Some a | Err _ => None end.

(** The state of [scan] once the keys with tentative digests [pre] are
    done: [m] holds the digests met, each with the index of its one owner
    or with -1, and [collision] the indices of the keys that share one. *)
Definition scanned (pre : list Z) (m : gmap Z Z) (collision : list Z) : Prop :=
  (forall d, m !! d = None <-> d ∉ pre)
  /\ (forall d j, m !! d = Some j -> 0 <= j ->
        pre !! Z.to_nat j = Some d /\ occurrences d pre = 1%nat)
  /\ (forall d j, m !! d = Some j -> j < 0 -> (2 <= occurrences d pre)%nat)
  /\ NoDup collision
  /\ (forall c, c ∈ collision <->
        exists i d, c = Z.of_nat i /\ pre !! i = Some d
                    /\ (2 <= occurrences d pre)%nat).

(** Every index to rehash is in range, and [f] gives the fallback digest
    of its key. *)
Definition rehashable (vs : list SortOrder.Key) (f : Z -> Z) (todo : list Z)
  : Prop :=
  forall c, c ∈ todo ->
            exists v, SortOrder.index vs c = Ok v /\ SortOrder.k_fnv v = Ok (f c).

(** The fallback digest of the key at index [c]. *)
Definition fallback (dig : list (Z * Z)) (c : Z) : Z :=
  default 0 (snd <$> dig !! Z.to_nat c).

(** The FNV hasher as options: [&HashOptions{Hasher: fnv.New64()}]. *)
Definition fnvOptions : option HashOptions := Some (mkOptions (Some fnv.New64)).

(** The two digests of a key, 0 standing for a failed call. *)
Definition keyDigests (k : Value) : Z * Z :=
  (default 0 (code (SortOrder.Hash k None)),
   default 0 (code (SortOrder.Hash k fnvOptions))).

(** Both calls of [Hash] on the key succeed. *)
Definition hashable (k : Value) : Prop :=
  SortOrder.Hash k None = Ok (fst (keyDigests k))
  /\ SortOrder.Hash k fnvOptions = Ok (snd (keyDigests k)).

(** "ties are impossible": the fallback pass leaves no two keys with one
    digest, and no fallback digest is the tentative digest of a key. *)
Definition resolvable (dig : list (Z * Z)) : Prop :=
  NoDup (settled dig)
  /\ Forall (fun d => shared (map fst dig) (fst d) = true ->
                      snd d ∉ map fst dig) dig.

(** Visiting a list of entries, key then value, in the order of the
    list. *)
Fixpoint visitPairs (H : Hash64) (kvs : list (Value * Value))
    (w : hstate H) : result (hstate H) :=
  match kvs with
  | [] => Ok w
  | kv :: kvs' =>
      w ← SortOrder.visit H (fst kv) w;
      w ← SortOrder.visit H (snd kv) w;
      visitPairs H kvs' w
  end.

(** The digest the key [k] is sorted by, among keys with tentative digests
    [cs]. *)
Definition settledKey (cs : list Z) (k : Value) : Z :=
  if shared cs (fst (keyDigests k)) then snd (keyDigests k)
  else fst (keyDigests k).

(** The digests of the keys of a map. *)
Definition mapDigests (kvs : list (Value * Value)) : list (Z * Z) :=
  map (fun kv => keyDigests (fst kv)) kvs.

(** ** src/unnamed/part_000, first revision *)

Module Basic.

(** The [switch v.Kind()] of this revision knows [int] and [uint] only. *)
Definition widen (v : Value) : Value :=
  match v with
  | VNil => VInt W8 0
  | VInt WNative n => VInt W64 n
  | VUint WNative n => VUint W64 n
  | _ => v
  end.

(** [visit] from the nil check on.  The recursive calls go through the
    one [if v.Kind() == reflect.Interface { v = v.Elem() }] that opens
    [visit]; pointers are not followed, and a map is walked in the order
    of [MapKeys]. *)
Fixpoint walk (H : Hash64) (v : Value) (w : hstate H) {struct v}
  : result (hstate H) :=
  let visit := fun (x : Value) (w : hstate H) =>
    match x with
    | VIface e => walk H e w
    | _ => walk H x w
    end in
  let v' := widen v in
  let k := Kind_of v' in
  if numeric k then
    bs ← binary_Write v'; Ok (hWrite H w bs)
  else
    match v with
    | VArray es | VSlice es =>
        (fix elems (es : list Value) (w : hstate H) :=
           match es with
           | [] => Ok w
           | e :: es' => w ← visit e w; elems es' w
           end) es w
    | VMap kvs =>
        (fix entries (kvs : list (Value * Value)) (w : hstate H) :=
           match kvs with
           | [] => Ok w
           | (k, x) :: kvs' => w ← visit k w; w ← visit x w; entries kvs' w
           end) kvs w
    | VStruct _ fs =>
        (fix fields (fs : list (StructField * Value)) (w : hstate H) :=
           match fs with
           | [] => Ok w
           | (f, x) :: fs' =>
               if CanSet f || negb (String.eqb (Name f) "_") then
                 w ← visit x w; fields fs' w
               else fields fs' w
           end) fs w
    | VString s => Ok (hWrite H w (bytes_of_string s))
    | _ => Err (ErrUnknownKind k)
    end.

Definition visit (H : Hash64) (v : Value) (w : hstate H)
  : result (hstate H) :=
  match v with
  | VIface e => walk H e w
  | _ => walk H v w
  end.

Definition Hash (v : Value) (opts : option HashOptions) : result Z :=
  let H := hasher_of opts in sum_walk H (visit H v).

End Basic.

(** ** uint64Slice, the sortable slice of the later revisions *)

Module uint64Slice.

(** [func (p uint64Slice) Len() int] *)
Definition Len (p : list Z) : Z := Z.of_nat (length p).

(** [func (p uint64Slice) Less(i, j int) bool { return p[i] < p[j] }] *)
Definition Less (p : list Z) (i j : Z) : result bool :=
  SortOrder.index p i ≫= fun a : Z =>
  SortOrder.index p j ≫= fun b : Z => Ok (a <? b).

(** [func (p uint64Slice) Swap(i, j int) { p[i], p[j] = p[j], p[i] }]:
    both elements are read, then [p[i]] and [p[j]] are assigned. *)
Definition Swap (p : list Z) (i j : Z) : result (list Z) :=
  SortOrder.index p j ≫= fun b : Z =>
  SortOrder.index p i ≫= fun a : Z =>
  Ok (<[Z.to_nat j := a]> (<[Z.to_nat i := b]> p)).

End uint64Slice.

(** ** Shapes of values *)

(** [wrap layers v]: [v] behind pointers ([true]) and interfaces ([false]),
    the outermost first. *)
Definition wrap (layers : list bool) (v : Value) : Value :=
  fold_right (fun (ptr : bool) (v : Value) => if ptr then VPtr v else VIface v)
    v layers.

(** The test of the struct case: the field is visited. *)
Definition visible (f : StructField) : bool :=
  CanSet f || negb (String.eqb (Name f) "_").

(** The keys and values of a map in one sequence: k1, v1, k2, v2, ... *)
Definition flat (kvs : list (Value * Value)) : list Value :=
  concat (map (fun kv : Value * Value => [fst kv; snd kv]) kvs).

(** No map anywhere in the value. *)
Fixpoint mapfree (v : Value) : bool :=
  match v with
  | VMap _ => false
  | VArray es | VSlice es => forallb mapfree es
  | VStruct _ fs => forallb (fun fx : StructField * Value => mapfree (snd fx)) fs
  | VIface e | VPtr e => mapfree e
  | _ => true
  end.

(** No visited field of a struct in the value is tagged [ignore] under the
    tag name [tag]. *)
Fixpoint untagged (tag : string) (v : Value) : bool :=
  match v with
  | VArray es | VSlice es => forallb (untagged tag) es
  | VMap kvs =>
      forallb (fun kv : Value * Value => untagged tag (fst kv) && untagged tag (snd kv)) kvs
  | VStruct _ fs =>
      forallb (fun fx : StructField * Value => negb (String.eqb (Tag_Get (Tag (fst fx)) tag) "ignore")
                         && untagged tag (snd fx)) fs
  | VIface e | VPtr e => untagged tag e
  | _ => true
  end.

(** The kinds [visit] has a rule for, at every depth: no channel, function,
    unsafe pointer, [uintptr] or [complex128]. *)
Fixpoint supported (v : Value) : bool :=
  match v with
  | VUintptr _ | VComplex128 _ _ | VChan | VFunc | VUnsafePointer => false
  | VArray es | VSlice es => forallb supported es
  | VMap kvs => forallb (fun kv : Value * Value => supported (fst kv) && supported (snd kv)) kvs
  | VStruct _ fs => forallb (fun fx : StructField * Value => supported (snd fx)) fs
  | VIface e | VPtr e => supported e
  | _ => true
  end.

(** What the first revision handles as the later ones do: no map, no
    pointer, no boolean, and interfaces that hold a concrete value. *)
Fixpoint simple (v : Value) : bool :=
  match v with
  | VMap _ | VPtr _ | VBool _ => false
  | VIface (VIface _) => false
  | VIface e => simple e
  | VArray es | VSlice es => forallb simple es
  | VStruct _ fs => forallb (fun fx : StructField * Value => simple (snd fx)) fs
  | _ => true
  end.

(** The error of a result, if it is one. *)
Definition err_of {A} (r : result A) : option error :=
  match r with Ok _ => None | Err e => Some e end.

(** The errors [visit] raises by itself on a value it has no rule for. *)
Definition kind_error (e : error) : Prop :=
  e = ErrUnknownKind reflect.Chan \/ e = ErrUnknownKind reflect.Func
  \/ e = ErrUnknownKind reflect.UnsafePointer
  \/ e = ErrUnknownKind reflect.Complex128
  \/ e = ErrBinaryWrite reflect.Uintptr.

(** ** The map case of the XOR revision, by entries *)

(** What one entry adds to [h]: [kh ^ vh]. *)
Definition entryXor (kv : Value * Value) : result Z :=
  XorTags.Hash (fst kv) None ≫= fun kh : Z =>
  XorTags.Hash (snd kv) None ≫= fun vh : Z => Ok (Z.lxor kh vh).

(** The loop [for _, k := range v.MapKeys()] of the XOR revision, from
    the accumulator [h] on. *)
Fixpoint xorEntries (kvs : list (Value * Value)) (h : Z) : result Z :=
  match kvs with
  | [] => Ok h
  | kv :: kvs' =>
      XorTags.Hash (fst kv) None ≫= fun kh : Z =>
      XorTags.Hash (snd kv) None ≫= fun vh : Z =>
      xorEntries kvs' (Z.lxor (Z.lxor h kh) vh)
  end.

(** A value that holds no other value. *)
Definition leaf (v : Value) : bool :=
  match v with
  | VArray _ | VSlice _ | VMap _ | VStruct _ _ | VIface _ | VPtr _ => false
  | _ => true
  end.

(** * Properties *)

(** ** The digests of the standard library *)

(** The check values of CRC-64/ECMA (reflected) and of 64-bit FNV-1. *)
Example crc64_check_value :
  hSum64 crc64.New
    (hWrite crc64.New (hNew crc64.New) (bytes_of_string "123456789"))
  = 0x995DC9BBDF1939FA.
Proof. vm_compute. reflexivity. Qed.

Example fnv64_check_value :
  hSum64 fnv.New64 (hWrite fnv.New64 (hNew fnv.New64) (bytes_of_string "a"))
  = 0xAF63BD4C8601B7BE.
Proof. vm_compute. reflexivity. Qed.

Lemma not64_involutive (z : Z) : crc64.not64 (crc64.not64 z) = z.
Proof.
  unfold crc64.not64.
  rewrite Z.lxor_assoc, Z.lxor_nilpotent, Z.lxor_0_r. reflexivity.
Qed.

(** CRC-64 is a streaming digest: two writes are one write of the
    concatenation, and an empty write changes nothing. *)
Lemma crc64_update_app (crc : Z) (p q : list Z) :
  crc64.update (crc64.update crc p) q = crc64.update crc (p ++ q).
Proof.
  unfold crc64.update.
  rewrite not64_involutive, fold_left_app. reflexivity.
Qed.

Lemma crc64_update_nil (crc : Z) : crc64.update crc [] = crc.
Proof. unfold crc64.update. simpl. apply not64_involutive. Qed.

Lemma bytes_of_string_app (a b : string) :
  bytes_of_string (a ++ b) = bytes_of_string a ++ bytes_of_string b.
Proof.
  unfold bytes_of_string.
  induction a as [|c a IH]; simpl; [reflexivity|].
  f_equal. exact IH.
Qed.

Lemma le_bytes_spec (k : nat) (n : Z) :
  le_bytes k n
  = map (fun i => (n / 2 ^ (8 * Z.of_nat i)) mod 256) (seq 0 k).
Proof.
  unfold le_bytes. apply map_ext. intros i.
  rewrite Z.shiftr_div_pow2 by lia.
  change 255 with (Z.ones 8). rewrite Z.land_ones by lia. reflexivity.
Qed.

(** ** The result monad *)

Lemma bind_Ok {A B} (a : A) (f : A -> result B) : (Ok a ≫= f) = f a.
Proof. reflexivity. Qed.

Lemma bind_Err {A B} (e : error) (f : A -> result B) : (Err e ≫= f) = Err e.
Proof. reflexivity. Qed.

Lemma bind_inv_Ok {A B} (r : result A) (f : A -> result B) (b : B) :
  (r ≫= f) = Ok b -> exists a, r = Ok a /\ f a = Ok b.
Proof. destruct r as [a|e]; [eauto | discriminate]. Qed.

(** ** src/hashstructure.go: equations of [visit] *)

Section LoopOrderEquations.

Context (H : Hash64).
Implicit Types (w : hstate H) (v x : Value).

Lemma loop_visit_slice_cons v es w :
  LoopOrder.visit H (VSlice (v :: es)) w
  = (LoopOrder.visit H v w ≫= LoopOrder.visit H (VSlice es)).
Proof. reflexivity. Qed.

Lemma loop_visit_struct_nil t w : LoopOrder.visit H (VStruct t []) w = Ok w.
Proof. reflexivity. Qed.

Lemma loop_visit_struct_cons t f x fs w :
  LoopOrder.visit H (VStruct t ((f, x) :: fs)) w
  = if CanSet f || negb (String.eqb (Name f) "_")
    then LoopOrder.visit H x w ≫= LoopOrder.visit H (VStruct t fs)
    else LoopOrder.visit H (VStruct t fs) w.
Proof. reflexivity. Qed.

Lemma loop_visit_string s w :
  LoopOrder.visit H (VString s) w = Ok (hWrite H w (bytes_of_string s)).
Proof. reflexivity. Qed.

(** The struct case never looks at the type: only the fields count. *)
Lemma loop_visit_struct_tname t1 t2 fs w :
  LoopOrder.visit H (VStruct t1 fs) w = LoopOrder.visit H (VStruct t2 fs) w.
Proof. reflexivity. Qed.

End LoopOrderEquations.

(** A trailing field holding the empty string adds an empty write, which
    CRC-64 does not see. *)
Lemma loop_visit_struct_empty_string t t' fs f (w : hstate crc64.New) :
  LoopOrder.visit crc64.New (VStruct t' (fs ++ [(f, VString "")])) w
  = LoopOrder.visit crc64.New (VStruct t fs) w.
Proof.
  revert w. induction fs as [|[g x] fs IH]; intros w.
  - simpl app. rewrite loop_visit_struct_cons, loop_visit_struct_nil.
    rewrite loop_visit_string. simpl.
    change (crc64.update w []) with (crc64.update w (@nil Z)).
    rewrite crc64_update_nil. destruct (CanSet f || _); reflexivity.
  - simpl app. rewrite !loop_visit_struct_cons.
    destruct (CanSet g || _); [|apply IH].
    destruct (LoopOrder.visit crc64.New x w) as [w'|e]; [|reflexivity].
    rewrite !bind_Ok. apply IH.
Qed.

(** ** Struct types (C3) *)

(** C3.  The claim asks that two records of different struct types with
    the same field contents hash differently, as TestHash_equal does for
    [testFoo{"foo"}] and [testBar{"foo"}].  The struct case of [visit]
    writes the fields only: whatever the options, two structs that differ
    in the type name alone get the same result, and the two values of the
    test both hash to the CRC-64 of "foo". *)
Theorem struct_type_identity_not_hashed :
  (forall t1 t2 fs opts,
      LoopOrder.Hash (VStruct t1 fs) opts = LoopOrder.Hash (VStruct t2 fs) opts)
  /\ Examples.testFoo <> Examples.testBar
  /\ LoopOrder.Hash Examples.testFoo None = Ok 10965392271467943256
  /\ LoopOrder.Hash Examples.testBar None = Ok 10965392271467943256.
Proof.
  split; [|split; [|split]].
  - intros t1 t2 fs opts. unfold LoopOrder.Hash, sum_walk.
    rewrite (loop_visit_struct_tname _ t1 t2). reflexivity.
  - discriminate.
  - vm_compute. reflexivity.
  - vm_compute. reflexivity.
Qed.

(** ** Scalars (C5) *)

(** C5, as stated, fails: an [int32] is written on four bytes and an
    [int64] on eight, and the two hashes of 5 differ. *)
Lemma int32_int64_hash_differently :
  LoopOrder.visit crc64.New (VInt W32 5) 0 = Ok (crc64.update 0 [5; 0; 0; 0])
  /\ LoopOrder.visit crc64.New (VInt W64 5) 0
     = Ok (crc64.update 0 [5; 0; 0; 0; 0; 0; 0; 0])
  /\ LoopOrder.Hash (VInt W32 5) None <> LoopOrder.Hash (VInt W64 5) None.
Proof.
  split; [reflexivity|]. split; [reflexivity|].
  vm_compute. discriminate.
Qed.

(** C5, amended.  Only the platform-sized [int] and [uint] are widened, to
    [int64] and [uint64]; a sized integer is written on its own width; a
    boolean becomes the one byte 0 or 1.  All of them are written
    fixed-width and little-endian: byte [i] is [n / 2^(8 i) mod 256].
    Hence an [int] and an [int64] holding the same number hash alike. *)
Theorem visit_scalar_encoding (H : Hash64) (w : hstate H) (n : Z) (b : bool) :
  LoopOrder.visit H (VInt WNative n) w = Ok (hWrite H w (le_bytes 8 n))
  /\ LoopOrder.visit H (VUint WNative n) w = Ok (hWrite H w (le_bytes 8 n))
  /\ LoopOrder.visit H (VInt W64 n) w = Ok (hWrite H w (le_bytes 8 n))
  /\ LoopOrder.visit H (VUint W64 n) w = Ok (hWrite H w (le_bytes 8 n))
  /\ LoopOrder.visit H (VInt W32 n) w = Ok (hWrite H w (le_bytes 4 n))
  /\ LoopOrder.visit H (VUint W32 n) w = Ok (hWrite H w (le_bytes 4 n))
  /\ LoopOrder.visit H (VInt W16 n) w = Ok (hWrite H w (le_bytes 2 n))
  /\ LoopOrder.visit H (VUint W16 n) w = Ok (hWrite H w (le_bytes 2 n))
  /\ LoopOrder.visit H (VInt W8 n) w = Ok (hWrite H w (le_bytes 1 n))
  /\ LoopOrder.visit H (VUint W8 n) w = Ok (hWrite H w (le_bytes 1 n))
  /\ LoopOrder.visit H (VBool b) w = Ok (hWrite H w [if b then 1 else 0])
  /\ (forall k, le_bytes k n
                = map (fun i => (n / 2 ^ (8 * Z.of_nat i)) mod 256) (seq 0 k))
  /\ (forall opts, LoopOrder.Hash (VInt WNative n) opts
                   = LoopOrder.Hash (VInt W64 n) opts)
  /\ (forall opts, LoopOrder.Hash (VUint WNative n) opts
                   = LoopOrder.Hash (VUint W64 n) opts).
Proof.
  repeat split; try reflexivity.
  - destruct b; reflexivity.
  - intros k. apply le_bytes_spec.
Qed.

(** ** Zero-valued fields (C6) *)

(** C6.  The claim, like the comment of [Hash] ("Adding an exported field
    to a struct with the zero value will change the hash value"), asks for
    a different hash.  A string field holding its zero value adds no byte
    to the stream: under the default options the struct with the extra
    trailing field hashes as the struct without it. *)
Theorem zero_string_field_keeps_hash :
  (forall t t' fs f,
      LoopOrder.Hash (VStruct t' (fs ++ [(f, VString "")])) None
      = LoopOrder.Hash (VStruct t fs) None)
  /\ LoopOrder.Hash Examples.named None = Ok 10965392271467943256
  /\ LoopOrder.Hash Examples.namedExtra None = Ok 10965392271467943256.
Proof.
  split; [|split].
  - intros t t' fs f. unfold LoopOrder.Hash, sum_walk. simpl hasher_of.
    rewrite (loop_visit_struct_empty_string t t'). reflexivity.
  - vm_compute. reflexivity.
  - vm_compute. reflexivity.
Qed.

(** ** Strings (C7) *)

(** C7.  A string is written as its raw bytes, in one write and with
    nothing before or after.  So the default hash of a pair of strings
    depends on their concatenation only: [["ab","c"]] and [["a","bc"]]
    are different values with one hash. *)
Theorem string_raw_bytes_undelimited :
  (forall (H : Hash64) s (w : hstate H),
      LoopOrder.visit H (VString s) w = Ok (hWrite H w (bytes_of_string s)))
  /\ (forall a b c : string,
         LoopOrder.Hash (VSlice [VString (a ++ b); VString c]) None
         = LoopOrder.Hash (VSlice [VString a; VString (b ++ c)]) None)
  /\ Examples.ab_c <> Examples.a_bc
  /\ LoopOrder.Hash Examples.ab_c None = Ok 3231342946509354535
  /\ LoopOrder.Hash Examples.a_bc None = Ok 3231342946509354535.
Proof.
  split; [|split; [|split; [|split]]].
  - intros H s w. reflexivity.
  - intros a b c. unfold LoopOrder.Hash, sum_walk. simpl hasher_of.
    rewrite !loop_visit_slice_cons, !loop_visit_string, !bind_Ok.
    rewrite !loop_visit_slice_cons, !loop_visit_string, !bind_Ok.
    simpl hWrite. rewrite !crc64_update_app, !bytes_of_string_app, app_assoc.
    reflexivity.
  - discriminate.
  - vm_compute. reflexivity.
  - vm_compute. reflexivity.
Qed.

(** ** Enumeration order of maps in src/hashstructure.go (C1, C2) *)

(** What the restart of the key loop does on two keys with one CRC-64
    digest: the scan resumes at index 1, so the first key keeps its CRC-64
    digest and only the second gets the FNV digest. *)
Lemma loop_orderKeys_two_colliding {H} (k0 k1 : LoopOrder.Entry H) c f :
  LoopOrder.e_crc k0 = Ok c ->
  LoopOrder.e_crc k1 = Ok c ->
  LoopOrder.e_fnv k1 = Ok f ->
  f <> c ->
  LoopOrder.orderKeys [k0; k1] = Ok (<[f := k1]> (<[c := k0]> ∅), [c; f]).
Proof.
  intros H0 H1 Hf Hne. unfold LoopOrder.orderKeys. simpl.
  rewrite H0. simpl. rewrite lookup_empty.
  rewrite H1. simpl. rewrite lookup_insert_eq. simpl.
  rewrite Hf. simpl. rewrite lookup_insert_ne by congruence.
  rewrite lookup_empty. reflexivity.
Qed.

(** With the FNV hasher in place a collision is an error: the second run
    of the key loop never asks for a restart. *)
Lemma keyLoop_fallback_never_collides {H} (rest : list (LoopOrder.Entry H)) :
  forall i m ks m' ks',
    LoopOrder.keyLoop true rest i m ks <> Ok (LoopOrder.Collided m' ks').
Proof.
  induction rest as [|k rest IH]; intros i m ks m' ks'; simpl; [discriminate|].
  destruct (LoopOrder.e_fnv k) as [d|e]; [|discriminate]. rewrite bind_Ok.
  destruct (m !! d); [discriminate|]. apply IH.
Qed.

(** C1.  The claim asks for one hash whatever the order in which the
    runtime enumerates the keys.  In src/hashstructure.go the map
    [map[interface{}]string{uint8(1): "x", int8(1): "y"}] hashes to two
    different values under its two enumerations: both keys are written as
    the byte 01, the key enumerated first keeps the CRC-64 digest and the
    other one gets the FNV digest, so the visiting order follows the
    enumeration. *)
Theorem loop_map_hash_follows_enumeration :
  Permutation Examples.mixedKeys Examples.mixedKeys'
  /\ LoopOrder.Hash (VMap Examples.mixedKeys) None = Ok 17146846677972547229
  /\ LoopOrder.Hash (VMap Examples.mixedKeys') None = Ok 7048269482345546809.
Proof.
  split; [apply perm_swap|].
  split; vm_compute; reflexivity.
Qed.

(** C2.  The claim asks that two calls on one value return the same
    outcome.  In src/hashstructure.go two readings of one struct holding
    the map above, which differ in the enumeration of its keys only, give
    two different codes. *)
Theorem loop_hash_differs_between_calls :
  same_value Examples.holder Examples.holder'
  /\ LoopOrder.Hash Examples.holder None = Ok 1381321412909188307
  /\ LoopOrder.Hash Examples.holder' None = Ok 11461341597289608823.
Proof.
  split.
  - apply same_struct. constructor; [split; reflexivity || apply same_refl|].
    constructor; [|constructor].
    split; [reflexivity|]. apply same_map_order, perm_swap.
  - split; vm_compute; reflexivity.
Qed.

(** ** The [ignore] tag in src/unnamed/part_000 (C8) *)

Section XorTagsEquations.

Context (H : Hash64) (tag : string).
Implicit Types (w : hstate H) (x y : Value).

Lemma xor_visit_struct_nil t w :
  XorTags.visit H tag (VStruct t []) w = Ok w.
Proof. reflexivity. Qed.



End XorTagsEquations.



(** ** The [string] directive (C9) *)

Lemma visitFields_app (H : Hash64) hook fs1 fs2 (w : hstate H) :
  FieldPolicy.visitFields H hook (fs1 ++ fs2) w
  = (FieldPolicy.visitFields H hook fs1 w ≫= FieldPolicy.visitFields H hook fs2).
Proof.
  revert w. induction fs1 as [|f fs1 IH]; intros w; [reflexivity|].
  simpl. destruct (FieldPolicy.visitField H hook f w) as [w'|e]; [|reflexivity].
  rewrite !bind_Ok. apply IH.
Qed.

(** C9.  Take a record whose fields before [f] walk without error, [f]
    carrying the [string] directive.  When the type of its value has no
    textual representation, [Hash] fails with the not-stringer error that
    names [f], whose message is the one of src/include.go.  When it has
    one, the bytes of that text are written where the value would be, and
    the walk goes on with the fields after [f]. *)
Theorem string_directive_policy hook opts fs1 f fs2 w1 :
  FieldPolicy.directive f = FieldPolicy.DString ->
  FieldPolicy.visitFields (hasher_of opts) hook fs1 (hNew (hasher_of opts))
  = Ok w1 ->
  match FieldPolicy.text f with
  | None =>
      FieldPolicy.resolve hook f
      = Err (NotStringer (mkErrNotStringer (FieldPolicy.name f)))
      /\ FieldPolicy.Hash hook (fs1 ++ f :: fs2) opts
         = Err (NotStringer (mkErrNotStringer (FieldPolicy.name f)))
      /\ ErrNotStringer_Error (mkErrNotStringer (FieldPolicy.name f))
         = ("hashstructure: " ++ FieldPolicy.name f ++ " has hash:" ++ dquote
            ++ "string" ++ dquote
            ++ " set, but does not implement fmt.Stringer")%string
  | Some s =>
      FieldPolicy.resolve hook f = Ok (FieldPolicy.Include (VString s) false)
      /\ FieldPolicy.Hash hook (fs1 ++ f :: fs2) opts
         = sum_walk (hasher_of opts)
             (fun _ => FieldPolicy.visitFields (hasher_of opts) hook fs2
                         (hWrite (hasher_of opts) w1 (bytes_of_string s)))
  end.
Proof.
  intros Hd H1. unfold FieldPolicy.Hash, sum_walk.
  rewrite visitFields_app, H1, bind_Ok. simpl FieldPolicy.visitFields.
  unfold FieldPolicy.visitField, FieldPolicy.resolve. rewrite Hd.
  destruct (FieldPolicy.text f) as [s|]; repeat split; reflexivity.
Qed.

Lemma string_directive_policy_witness :
  FieldPolicy.directive Examples.plainField = FieldPolicy.DString
  /\ FieldPolicy.visitFields (hasher_of None) None [] (hNew (hasher_of None))
     = Ok 0
  /\ FieldPolicy.Hash None ([] ++ Examples.plainField :: []) None
     = Err (NotStringer (mkErrNotStringer "Addr")).
Proof.
  split; [reflexivity|]. split; [reflexivity|].
  apply (string_directive_policy None None [] Examples.plainField [] 0);
    reflexivity.
Defined.

(** With the capability, the field hashes as the string it prints as. *)
Example string_directive_stringer :
  FieldPolicy.Hash None [Examples.stringerField] None
  = SortOrder.Hash (VString "seven") None.
Proof. reflexivity. Qed.

(** ** Which digests order the keys (C10) *)

Lemma sort_visit_map (H : Hash64) kvs (w : hstate H) :
  SortOrder.visit H (VMap kvs) w
  = (SortOrder.keyOrder kvs ≫= fun idxs =>
       SortOrder.walkIdxs (SortOrder.entries H kvs) idxs w).
Proof.
  change (SortOrder.visit H (VMap kvs) w)
    with (SortOrder.visitMap (SortOrder.entries H kvs) w).
  unfold SortOrder.visitMap, SortOrder.keyOrder, SortOrder.entries.
  rewrite map_map. reflexivity.
Qed.

(** The key loop of src/hashstructure.go gets its digests from the same
    two calls. *)
Lemma loop_visit_map (H : Hash64) kvs (w : hstate H) :
  LoopOrder.visit H (VMap kvs) w
  = LoopOrder.visitMap
      (map (fun kv : Value * Value =>
              LoopOrder.mkEntry (fst kv)
                (LoopOrder.Hash (fst kv) None)
                (LoopOrder.Hash (fst kv) fnvOptions)
                (fun w => LoopOrder.visit H (fst kv) w
                          ≫= LoopOrder.visit H (snd kv))) kvs) w.
Proof. reflexivity. Qed.

(** C10.  Whatever hasher the caller supplies, [visit] orders the keys of
    a map by [keyOrder]: the digests [sortValues] receives for a key [k]
    are [Hash k nil] (CRC-64) and [Hash k] with the FNV hasher, and no
    other.  The caller's hasher only receives the writes of the entries
    once they are ordered; an error of the ordering is the error of the
    call. *)
Theorem map_key_order_ignores_caller_hasher kvs opts :
  SortOrder.keyOrder kvs
  = SortOrder.sortValues
      (map (fun kv =>
              SortOrder.mkKey (fst kv)
                (SortOrder.Hash (fst kv) None)
                (SortOrder.Hash (fst kv) (Some (mkOptions (Some fnv.New64)))))
           kvs)
  /\ SortOrder.Hash (VMap kvs) opts
     = (SortOrder.keyOrder kvs ≫= fun idxs =>
          sum_walk (hasher_of opts)
            (SortOrder.walkIdxs (SortOrder.entries (hasher_of opts) kvs) idxs)).
Proof.
  split; [reflexivity|].
  unfold SortOrder.Hash, sum_walk. rewrite sort_visit_map.
  destruct (SortOrder.keyOrder kvs); reflexivity.
Qed.

(** ** Counting digests *)

Lemma occurrences_snoc d d' (pre : list Z) :
  occurrences d (pre ++ [d'])
  = (occurrences d pre + if decide (d' = d) then 1 else 0)%nat.
Proof.
  unfold occurrences. rewrite count_occ_app. simpl.
  destruct (Z.eq_dec d' d), (decide (d' = d)); congruence.
Qed.

Lemma occurrences_zero d (l : list Z) : occurrences d l = 0%nat <-> d ∉ l.
Proof.
  unfold occurrences. rewrite <- count_occ_not_In, list_elem_of_In.
  reflexivity.
Qed.

Lemma occurrences_lookup d (l : list Z) i :
  l !! i = Some d -> (1 <= occurrences d l)%nat.
Proof.
  intros Hi. destruct (occurrences d l) eqn:E; [|lia].
  apply occurrences_zero in E. exfalso. apply E.
  eapply list_elem_of_lookup_2. exact Hi.
Qed.

Lemma occurrences_two d (l : list Z) :
  forall a b, l !! a = Some d -> l !! b = Some d -> a <> b ->
              (2 <= occurrences d l)%nat.
Proof.
  induction l as [|x l IH]; intros a b Ha Hb Hab; [discriminate|].
  unfold occurrences in *. simpl.
  destruct a as [|a], b as [|b]; simpl in Ha, Hb.
  - congruence.
  - injection Ha as ->. destruct (Z.eq_dec d d); [|congruence].
    apply occurrences_lookup in Hb. unfold occurrences in Hb. lia.
  - injection Hb as ->. destruct (Z.eq_dec d d); [|congruence].
    apply occurrences_lookup in Ha. unfold occurrences in Ha. lia.
  - assert (2 <= count_occ Z.eq_dec l d)%nat
      by (apply (IH a b); [assumption..|lia]).
    destruct (Z.eq_dec x d); lia.
Qed.

Lemma occurrences_one d (l : list Z) a b :
  occurrences d l = 1%nat -> l !! a = Some d -> l !! b = Some d -> a = b.
Proof.
  intros H1 Ha Hb. destruct (decide (a = b)) as [|Hne]; [assumption|].
  pose proof (occurrences_two d l a b Ha Hb Hne). lia.
Qed.

(** A digest met twice is met at two indices. *)
Lemma occurrences_two_inv d (l : list Z) :
  (2 <= occurrences d l)%nat ->
  exists a b, a <> b /\ l !! a = Some d /\ l !! b = Some d.
Proof.
  induction l as [|x l IH]; unfold occurrences in *; simpl; [lia|].
  destruct (Z.eq_dec x d) as [->|Hne]; intros H2.
  - assert (In d l) as Hin by (apply (count_occ_In Z.eq_dec); lia).
    apply list_elem_of_In, list_elem_of_lookup in Hin as [b Hb].
    exists 0%nat, (S b). repeat split; [lia|assumption].
  - destruct (IH H2) as (a & b & Hab & Ha & Hb).
    exists (S a), (S b). repeat split; [lia|assumption..].
Qed.

(** ** The first loop of [sortValues] *)

Lemma scanned_empty : scanned [] ∅ [].
Proof.
  unfold scanned. split_and!.
  - intros d. rewrite lookup_empty. split; [intros _; apply not_elem_of_nil|done].
  - intros d j Hm. rewrite lookup_empty in Hm. discriminate.
  - intros d j Hm. rewrite lookup_empty in Hm. discriminate.
  - constructor.
  - intros c. split; [intros Hc; inversion Hc|].
    intros (i & d & _ & Hi & _). discriminate.
Qed.

(** One round of the loop keeps [scanned]: the key at index [length pre]
    has tentative digest [d]. *)
Lemma scanned_fresh pre m collision d :
  scanned pre m collision -> m !! d = None ->
  scanned (pre ++ [d]) (<[d := Z.of_nat (length pre)]> m) collision.
Proof.
  intros (Hnone & Hown & Hdup & Hnd & Hcol) Hd.
  assert (occurrences d pre = 0%nat) as Hd0
      by (apply occurrences_zero, Hnone, Hd).
  unfold scanned. split_and!.
  - intros d'. rewrite lookup_insert, elem_of_app, list_elem_of_singleton.
    case_decide as E; [subst d'; split; [discriminate|tauto]|].
    rewrite Hnone. split; [intros ? [?|?]; [tauto|congruence]|tauto].
  - intros d' j. rewrite lookup_insert, occurrences_snoc.
    case_decide as E; [subst d'|].
    + intros [= <-] _. rewrite Nat2Z.id, Hd0.
      rewrite lookup_app_r, Nat.sub_diag by lia. done.
    + intros Hj Hpos. destruct (Hown d' j Hj Hpos) as [Hl Ho].
      rewrite lookup_app_l by (eapply lookup_lt_Some; exact Hl).
      split; [assumption|lia].
  - intros d' j. rewrite lookup_insert, occurrences_snoc.
    case_decide as E; [subst d'; intros [= <-] ?; lia|].
    intros Hj Hneg. pose proof (Hdup d' j Hj Hneg). lia.
  - assumption.
  - intros c. rewrite Hcol. split.
    + intros (i & d' & -> & Hi & Ho). exists i, d'. split_and!; [done| |].
      * rewrite lookup_app_l by (eapply lookup_lt_Some; exact Hi). done.
      * rewrite occurrences_snoc. lia.
    + intros (i & d' & -> & Hi & Ho). exists i, d'.
      rewrite occurrences_snoc in Ho.
      destruct (decide (d = d')) as [<-|Hne]; [lia|].
      rewrite Nat.add_0_r in Ho. split_and!; [done| |done].
      apply lookup_app_Some in Hi as [Hi|[Hlen Hi]]; [done|].
      apply list_lookup_singleton_Some in Hi as [_ ?]. congruence.
Qed.

Lemma scanned_first_collision pre m collision d j :
  scanned pre m collision -> m !! d = Some j -> 0 <= j ->
  scanned (pre ++ [d]) (<[d := -1]> m)
          ((collision ++ [j]) ++ [Z.of_nat (length pre)]).
Proof.
  intros (Hnone & Hown & Hdup & Hnd & Hcol) Hd Hj.
  destruct (Hown d j Hd Hj) as [Hjd Hd1].
  assert (Z.to_nat j < length pre)%nat as Hjlt
      by (eapply lookup_lt_Some; exact Hjd).
  unfold scanned. split_and!.
  - intros d'. rewrite lookup_insert, elem_of_app, list_elem_of_singleton.
    case_decide as E; [subst d'; split; [discriminate|tauto]|].
    rewrite Hnone. split; [intros ? [?|?]; [tauto|congruence]|tauto].
  - intros d' j'. rewrite lookup_insert, occurrences_snoc.
    case_decide as E; [intros [= <-] ?; lia|].
    intros Hj' Hpos. destruct (Hown d' j' Hj' Hpos) as [Hl Ho].
    rewrite lookup_app_l by (eapply lookup_lt_Some; exact Hl).
    split; [assumption|lia].
  - intros d' j'. rewrite lookup_insert, occurrences_snoc.
    case_decide as E; [subst d'; intros _ _; lia|].
    intros Hj' Hneg. pose proof (Hdup d' j' Hj' Hneg). lia.
  - rewrite <- app_assoc. apply NoDup_app. split_and!; [assumption| |].
    + intros c Hc Hc'. apply Hcol in Hc as (i & d' & -> & Hi & Ho).
      apply elem_of_cons in Hc' as [Hc'|Hc'].
      * subst j. rewrite Nat2Z.id in Hjd. assert (d' = d) by congruence.
        subst d'. lia.
      * apply list_elem_of_singleton in Hc'.
        apply lookup_lt_Some in Hi. lia.
    + apply NoDup_cons. split; [|apply NoDup_singleton].
      rewrite list_elem_of_singleton. lia.
  - intros c. rewrite !elem_of_app, !list_elem_of_singleton, Hcol. split.
    + intros [[(i & d' & -> & Hi & Ho)| ->]| ->].
      * exists i, d'. split_and!; [done| |].
        -- rewrite lookup_app_l by (eapply lookup_lt_Some; exact Hi). done.
        -- rewrite occurrences_snoc. lia.
      * exists (Z.to_nat j), d. split_and!; [lia| |].
        -- rewrite lookup_app_l by assumption. done.
        -- rewrite occurrences_snoc, decide_True by reflexivity. lia.
      * exists (length pre), d. split_and!; [done| |].
        -- rewrite lookup_app_r, Nat.sub_diag by lia. done.
        -- rewrite occurrences_snoc, decide_True by reflexivity. lia.
    + intros (i & d' & -> & Hi & Ho).
      apply lookup_app_Some in Hi as [Hi|[Hlen Hi]].
      * destruct (decide (d' = d)) as [->|Hne].
        -- left; right. pose proof (occurrences_one d pre _ _ Hd1 Hi Hjd). lia.
        -- left; left. exists i, d'. split_and!; [done..|].
           rewrite occurrences_snoc, decide_False in Ho by congruence. lia.
      * apply list_lookup_singleton_Some in Hi as [Hi _]. right. lia.
Qed.

Lemma scanned_repeated_collision pre m collision d j :
  scanned pre m collision -> m !! d = Some j -> j < 0 ->
  scanned (pre ++ [d]) m (collision ++ [Z.of_nat (length pre)]).
Proof.
  intros (Hnone & Hown & Hdup & Hnd & Hcol) Hd Hj.
  pose proof (Hdup d j Hd Hj) as Hd2.
  unfold scanned. split_and!.
  - intros d'. rewrite elem_of_app, list_elem_of_singleton.
    destruct (decide (d' = d)) as [->|Hne].
    + rewrite Hd. split; [discriminate|tauto].
    + rewrite Hnone. split; [intros ? [?|?]; [tauto|congruence]|tauto].
  - intros d' j' Hj' Hpos. rewrite occurrences_snoc.
    destruct (decide (d = d')) as [<-|Hne].
    + rewrite Hd in Hj'. injection Hj' as <-. lia.
    + destruct (Hown d' j' Hj' Hpos) as [Hl Ho].
      rewrite lookup_app_l by (eapply lookup_lt_Some; exact Hl).
      split; [assumption|lia].
  - intros d' j' Hj' Hneg. rewrite occurrences_snoc.
    pose proof (Hdup d' j' Hj' Hneg). lia.
  - apply NoDup_app. split_and!; [assumption| |apply NoDup_singleton].
    intros c Hc Hc'. apply Hcol in Hc as (i & d' & -> & Hi & Ho).
    apply list_elem_of_singleton in Hc'. apply lookup_lt_Some in Hi. lia.
  - intros c. rewrite !elem_of_app, !list_elem_of_singleton, Hcol. split.
    + intros [(i & d' & -> & Hi & Ho)| ->].
      * exists i, d'. split_and!; [done| |].
        -- rewrite lookup_app_l by (eapply lookup_lt_Some; exact Hi). done.
        -- rewrite occurrences_snoc. lia.
      * exists (length pre), d. split_and!; [done| |].
        -- rewrite lookup_app_r, Nat.sub_diag by lia. done.
        -- rewrite occurrences_snoc. lia.
    + intros (i & d' & -> & Hi & Ho).
      apply lookup_app_Some in Hi as [Hi|[Hlen Hi]].
      * left. exists i, d'. split_and!; [done..|].
        rewrite occurrences_snoc in Ho.
        destruct (decide (d = d')) as [<-|Hne]; [assumption|lia].
      * apply list_lookup_singleton_Some in Hi as [Hi _]. right. lia.
Qed.

(** When every key has a tentative digest, the loop runs to its end: [ks]
    holds the tentative digests and the state is [scanned] for all of
    them. *)
Lemma scan_spec vs cs :
  Forall2 (fun v c => SortOrder.k_crc v = Ok c) vs cs ->
  forall pre ks m collision,
    scanned pre m collision ->
    take (length pre) ks = pre ->
    length ks = (length pre + length vs)%nat ->
    exists m' collision',
      SortOrder.scan vs (length pre) ks m collision
      = Ok (pre ++ cs, m', collision')
      /\ scanned (pre ++ cs) m' collision'.
Proof.
  induction 1 as [|v c vs cs Hv _ IH]; intros pre ks m collision Hs Ht Hl.
  - exists m, collision. rewrite app_nil_r. split; [|assumption].
    simpl. rewrite <- Ht at 1. rewrite take_ge by (simpl in Hl; lia).
    reflexivity.
  - simpl in Hl. simpl. rewrite Hv, bind_Ok.
    assert (take (length (pre ++ [c])) (<[length pre := c]> ks) = pre ++ [c])
      as Ht'.
    { rewrite length_app. simpl. rewrite Nat.add_1_r.
      erewrite take_S_r by (apply list_lookup_insert_eq; lia).
      rewrite take_insert_ge by lia. rewrite Ht. reflexivity. }
    assert (length (<[length pre := c]> ks)
            = (length (pre ++ [c]) + length vs)%nat) as Hl'.
    { rewrite length_insert, length_app. simpl. lia. }
    assert (S (length pre) = length (pre ++ [c])) as HS
        by (rewrite length_app; simpl; lia).
    rewrite HS.
    destruct (m !! c) as [j|] eqn:Hm.
    + destruct (0 <=? j) eqn:Hj.
      * apply Z.leb_le in Hj.
        destruct (IH _ _ _ _ (scanned_first_collision _ _ _ _ _ Hs Hm Hj)
                    Ht' Hl') as (m' & col' & Hscan & Hs').
        rewrite <- (app_assoc pre [c] cs) in Hscan, Hs'. eauto.
      * apply Z.leb_gt in Hj.
        destruct (IH _ _ _ _ (scanned_repeated_collision _ _ _ _ _ Hs Hm Hj)
                    Ht' Hl') as (m' & col' & Hscan & Hs').
        rewrite <- (app_assoc pre [c] cs) in Hscan, Hs'. eauto.
    + destruct (IH _ _ _ _ (scanned_fresh _ _ _ _ Hs Hm) Ht' Hl')
        as (m' & col' & Hscan & Hs').
      rewrite <- (app_assoc pre [c] cs) in Hscan, Hs'. eauto.
Qed.

(** ** The second loop of [sortValues] *)

Lemma index_of_nat {A} (s : list A) i a :
  s !! i = Some a -> SortOrder.index s (Z.of_nat i) = Ok a.
Proof.
  intros Hi. unfold SortOrder.index.
  destruct (Z.of_nat i <? 0) eqn:E; [apply Z.ltb_lt in E; lia|].
  rewrite Nat2Z.id, Hi. reflexivity.
Qed.

Lemma index_Ok_inv {A} (s : list A) c a :
  SortOrder.index s c = Ok a -> 0 <= c /\ s !! Z.to_nat c = Some a.
Proof.
  unfold SortOrder.index. destruct (c <? 0) eqn:E; [discriminate|].
  apply Z.ltb_ge in E. destruct (s !! Z.to_nat c); [|discriminate].
  intros [= ->]. auto.
Qed.

Section Rehash.

Context (vs : list SortOrder.Key) (f : Z -> Z).


(** What a normal end means. *)
Lemma rehash_Ok todo : forall ks m ks' m',
  rehashable vs f todo -> NoDup todo ->
  SortOrder.rehash vs todo ks m = Ok (ks', m') ->
  length ks' = length ks
  /\ (forall c, c ∈ todo ->
        (Z.to_nat c < length ks)%nat ->
        ks' !! Z.to_nat c = Some (f c))
  /\ (forall c, c ∈ todo -> m' !! f c = Some c /\ m !! f c = None)
  /\ (forall i, Z.of_nat i ∉ todo -> ks' !! i = ks !! i)
  /\ (forall d, d ∉ map f todo -> m' !! d = m !! d)
  /\ NoDup (map f todo).
Proof.
  induction todo as [|c todo IH]; intros ks m ks' m' Hok Hnd Hre.
  - simpl in Hre. injection Hre as <- <-.
    split_and!;
      [done|intros c Hc; inversion Hc|intros c Hc; inversion Hc
      |done|done|constructor].
  - destruct (Hok c) as (v & Hv & Hf); [left|].
    apply index_Ok_inv in Hv as Hc0. destruct Hc0 as [Hc0 _].
    simpl in Hre. rewrite Hv, bind_Ok, Hf, bind_Ok in Hre.
    destruct (m !! f c) eqn:Hm; [discriminate|].
    apply NoDup_cons in Hnd as [Hc Hnd].
    destruct (IH _ _ _ _ (fun c' Hc' => Hok c' (list_elem_of_further _ _ _ Hc'))
                Hnd Hre) as (Hlen & Hks & Hm' & Hrest & Hother & Hfs).
    rewrite length_insert in Hlen.
    assert (f c ∉ map f todo) as Hfc.
    { intros Hin. apply list_elem_of_fmap in Hin as (c' & Heq & Hc').
      destruct (Hm' c' Hc') as [_ Hnone]. rewrite <- Heq in Hnone.
      rewrite lookup_insert_eq in Hnone. discriminate. }
    split_and!.
    + assumption.
    + intros c' Hc' Hlt. apply elem_of_cons in Hc' as [->|Hc'].
      * rewrite Hrest by (rewrite Z2Nat.id by assumption; exact Hc).
        apply list_lookup_insert_eq. assumption.
      * apply Hks; [assumption|]. rewrite length_insert. assumption.
    + intros c' Hc'. apply elem_of_cons in Hc' as [->|Hc'].
      * rewrite (Hother _ Hfc), lookup_insert_eq. done.
      * destruct (Hm' c' Hc') as [Hsome Hnone]. split; [assumption|].
        apply lookup_insert_None in Hnone as [? _]. assumption.
    + intros i Hi. apply not_elem_of_cons in Hi as [Hne Hi].
      rewrite (Hrest i Hi). apply list_lookup_insert_ne. lia.
    + intros d Hd. simpl in Hd. apply not_elem_of_cons in Hd as [Hne Hd].
      rewrite (Hother d Hd). apply lookup_insert_ne. congruence.
    + simpl. apply NoDup_cons. split; assumption.
Qed.

End Rehash.

(** ** [sortValues] against the spec *)

Section SortValues.

Context (vs : list SortOrder.Key) (dig : list (Z * Z)).
Context (Hdig : Forall2 (fun v d => SortOrder.k_crc v = Ok (fst d)
                                    /\ SortOrder.k_fnv v = Ok (snd d)) vs dig).

Lemma dig_length : length dig = length vs.
Proof. symmetry. eapply Forall2_length. exact Hdig. Qed.

Lemma scan_all :
  exists m collision,
    SortOrder.scan vs 0%nat (replicate (length vs) 0) ∅ []
    = Ok (map fst dig, m, collision)
    /\ scanned (map fst dig) m collision.
Proof.
  apply (scan_spec vs (map fst dig)) with (pre := []).
  - apply Forall2_fmap_r. eapply Forall2_impl; [exact Hdig|].
    intros v d [Hc _]. exact Hc.
  - apply scanned_empty.
  - reflexivity.
  - rewrite length_replicate. reflexivity.
Qed.

Lemma digests_unfold m collision :
  SortOrder.scan vs 0%nat (replicate (length vs) 0) ∅ []
  = Ok (map fst dig, m, collision) ->
  SortOrder.digests vs = SortOrder.rehash vs collision (map fst dig) m.
Proof.
  intros Hscan. unfold SortOrder.digests. rewrite Hscan, bind_Ok.
  destruct collision; reflexivity.
Qed.

Lemma collision_rehashable m collision :
  scanned (map fst dig) m collision -> rehashable vs (fallback dig) collision.
Proof.
  intros (_ & _ & _ & _ & Hcol) c Hc.
  apply Hcol in Hc as (i & d & -> & Hi & _).
  apply list_lookup_fmap_Some in Hi as ([d1 d2] & Hd & Hi). simpl in Hd.
  destruct (Forall2_lookup_r _ _ _ _ _ Hdig Hi) as (v & Hv & _ & Hf).
  exists v. split; [apply index_of_nat, Hv|].
  unfold fallback. rewrite Nat2Z.id, Hi. exact Hf.
Qed.

(** On a normal end every key has the digest the spec gives it, the
    digests are pairwise distinct, and [m] leads from each digest back to
    the index of its key. *)
Lemma digests_settled ks m :
  SortOrder.digests vs = Ok (ks, m) ->
  ks = settled dig
  /\ NoDup ks
  /\ (forall i d, ks !! i = Some d -> m !! d = Some (Z.of_nat i)).
Proof.
  destruct scan_all as (m0 & collision & Hscan & Hs).
  rewrite (digests_unfold _ _ Hscan). intros Hre.
  pose proof (collision_rehashable _ _ Hs) as Hok.
  destruct Hs as (Hnone & Hown & Hdup & Hnd & Hcol).
  destruct (rehash_Ok vs (fallback dig) collision _ _ _ _ Hok Hnd Hre)
    as (Hlen & Hks & Hm & Hrest & Hother & Hfs).
  rewrite length_map in Hlen.
  (* the digest at each index *)
  assert (forall i c fb, dig !! i = Some (c, fb) ->
            ks !! i = Some (if shared (map fst dig) c then fb else c)) as Hat.
  { intros i c fb Hi. unfold shared.
    assert (map fst dig !! i = Some c) as Hci
        by (rewrite list_lookup_fmap, Hi; reflexivity).
    destruct (2 <=? occurrences c (map fst dig))%nat eqn:E.
    - apply Nat.leb_le in E.
      assert (Z.of_nat i ∈ collision) as Hin by (apply Hcol; eauto).
      pose proof (Hks _ Hin) as Hk. rewrite Nat2Z.id in Hk.
      rewrite Hk by (rewrite length_map; eapply lookup_lt_Some; exact Hi).
      unfold fallback. rewrite Nat2Z.id, Hi. reflexivity.
    - apply Nat.leb_gt in E. rewrite Hrest; [exact Hci|].
      intros Hin. apply Hcol in Hin as (i' & d' & Heq & Hi' & Ho).
      apply Nat2Z.inj in Heq. subst i'. assert (d' = c) by congruence.
      subst d'. lia. }
  assert (ks = settled dig) as Hset.
  { apply list_eq. intros i. unfold settled. rewrite list_lookup_fmap.
    destruct (dig !! i) as [[c fb]|] eqn:Hi.
    - rewrite (Hat _ _ _ Hi). reflexivity.
    - apply lookup_ge_None in Hi. apply lookup_ge_None. lia. }
  (* where [m] sends each digest *)
  assert (forall i d, ks !! i = Some d -> m !! d = Some (Z.of_nat i)) as Hback.
  { intros i d Hi.
    destruct (dig !! i) as [[c fb]|] eqn:Hd;
      [|apply lookup_ge_None in Hd; apply lookup_lt_Some in Hi; lia].
    rewrite (Hat _ _ _ Hd) in Hi. injection Hi as <-.
    assert (map fst dig !! i = Some c) as Hci
        by (rewrite list_lookup_fmap, Hd; reflexivity).
    unfold shared. destruct (2 <=? occurrences c (map fst dig))%nat eqn:E.
    - apply Nat.leb_le in E.
      assert (Z.of_nat i ∈ collision) as Hin by (apply Hcol; eauto).
      destruct (Hm _ Hin) as [Hsome _]. unfold fallback in Hsome.
      rewrite Nat2Z.id, Hd in Hsome. exact Hsome.
    - apply Nat.leb_gt in E.
      assert (c ∉ map (fallback dig) collision) as Hc.
      { intros Hin. apply list_elem_of_fmap in Hin as (c' & Heq & Hc').
        destruct (Hm _ Hc') as [_ Hn]. rewrite <- Heq in Hn.
        apply Hnone in Hn. apply Hn.
        eapply list_elem_of_lookup_2. exact Hci. }
      rewrite (Hother _ Hc).
      destruct (m0 !! c) as [j|] eqn:Hj.
      + destruct (Z.lt_ge_cases j 0) as [Hneg|Hpos].
        * pose proof (Hdup _ _ Hj Hneg). lia.
        * destruct (Hown _ _ Hj Hpos) as [Hjc H1].
          pose proof (occurrences_one _ _ _ _ H1 Hjc Hci). f_equal. lia.
      + apply Hnone in Hj. exfalso. apply Hj.
        eapply list_elem_of_lookup_2. exact Hci. }
  split_and!; [assumption| |assumption].
  apply NoDup_alt. intros i j d Hi Hj.
  apply Hback in Hi, Hj. rewrite Hi in Hj. injection Hj as Hj. lia.
Qed.

End SortValues.

(** ** Collisions among the keys of a map (C4) *)


(** An error of the ordering is the error of the call. *)
Lemma sort_hash_map_order_error kvs opts e :
  SortOrder.digests (map (fun kv => SortOrder.keyOf (fst kv)) kvs) = Err e ->
  SortOrder.Hash (VMap kvs) opts = Err e.
Proof.
  intros He. unfold SortOrder.Hash, sum_walk. rewrite sort_visit_map.
  unfold SortOrder.keyOrder, SortOrder.sortValues. rewrite He. reflexivity.
Qed.



(** The two keys with one CRC-64 digest are sorted by their FNV digests,
    the third key by its CRC-64 digest. *)
Example crcTwins_order :
  settled Examples.crcTwinsDigests
  = [8283543412451037791; 2051720889647129208; 14377374713186192222]
  /\ SortOrder.keyOrder Examples.crcTwins = Ok [1; 0; 2].
Proof. split; vm_compute; reflexivity. Qed.

(** Two keys written as the same byte agree on both digests, so the
    fallback leaves them tied. *)
Example mixedKeys_tie :
  mapDigests Examples.mixedKeys
  = [(12431040862937440310, 12638153115695167454);
     (12431040862937440310, 12638153115695167454)]
  /\ ~ NoDup (settled (mapDigests Examples.mixedKeys)).
Proof.
  split; [vm_compute; reflexivity|].
  intros Hnd. vm_compute in Hnd. apply NoDup_cons in Hnd as [Hin _].
  apply Hin. left.
Qed.

(** Keys that agree on both digests: the error names one of them. *)
Example mixedKeys_unresolvable :
  SortOrder.Hash (VMap Examples.mixedKeys) None = Err (ErrCollision (VInt W8 1))
  /\ SortOrder.Hash (VMap Examples.mixedKeys') None
     = Err (ErrCollision (VUint W8 1)).
Proof. split; vm_compute; reflexivity. Qed.

(** ** Enumeration order of maps in src/unnamed/part_001 *)

Lemma rehash_complete vs f todo : forall ks m,
  rehashable vs f todo ->
  (forall c, c ∈ todo -> m !! f c = None) ->
  NoDup (map f todo) ->
  exists ks' m', SortOrder.rehash vs todo ks m = Ok (ks', m').
Proof.
  induction todo as [|c todo IH]; intros ks m Hok Hfree Hnd; [simpl; eauto|].
  destruct (Hok c) as (v & Hv & Hf); [left|].
  simpl. rewrite Hv, bind_Ok, Hf, bind_Ok, (Hfree c) by left.
  simpl in Hnd. apply NoDup_cons in Hnd as [Hc Hnd].
  apply IH; [|intros c' Hc'|assumption].
  - intros c' Hc'. apply Hok. right. exact Hc'.
  - rewrite lookup_insert_ne; [apply Hfree; right; exact Hc'|].
    intros Heq. apply Hc. rewrite Heq.
    apply list_elem_of_fmap. exists c'. split; [reflexivity|assumption].
Qed.

Lemma shared_Permutation cs cs' d :
  cs ≡ₚ cs' -> shared cs d = shared cs' d.
Proof.
  intros Hp. unfold shared, occurrences.
  rewrite (proj1 (Permutation_count_occ Z.eq_dec cs cs') Hp d). reflexivity.
Qed.

Lemma settled_Permutation dig dig' :
  dig ≡ₚ dig' -> settled dig ≡ₚ settled dig'.
Proof.
  intros Hp. unfold settled.
  assert (map fst dig ≡ₚ map fst dig') as Hcs by (apply fmap_Permutation, Hp).
  rewrite (map_ext _ (fun d => if shared (map fst dig') (fst d)
                               then snd d else fst d)).
  - apply fmap_Permutation, Hp.
  - intros d. rewrite (shared_Permutation _ _ _ Hcs). reflexivity.
Qed.

Lemma resolvable_Permutation dig dig' :
  dig ≡ₚ dig' -> resolvable dig -> resolvable dig'.
Proof.
  intros Hp [Hnd Hfree].
  assert (map fst dig ≡ₚ map fst dig') as Hcs by (apply fmap_Permutation, Hp).
  split.
  - rewrite <- (settled_Permutation _ _ Hp). exact Hnd.
  - rewrite <- Hp. eapply Forall_impl; [exact Hfree|].
    intros d Hd Hs. rewrite <- Hcs. apply Hd.
    rewrite (shared_Permutation _ _ _ Hcs). exact Hs.
Qed.

Section Resolvable.

Context (vs : list SortOrder.Key) (dig : list (Z * Z)).
Context (Hdig : Forall2 (fun v d => SortOrder.k_crc v = Ok (fst d)
                                    /\ SortOrder.k_fnv v = Ok (snd d)) vs dig).

(** The second loop ends normally exactly when the digests are
    resolvable. *)
Lemma digests_Ok_resolvable ks m :
  SortOrder.digests vs = Ok (ks, m) -> resolvable dig.
Proof.
  intros Hre. destruct (digests_settled vs dig Hdig ks m Hre) as (Hks & Hnd & _).
  split; [rewrite <- Hks; exact Hnd|].
  destruct (scan_all vs dig Hdig) as (m0 & collision & Hscan & Hs).
  rewrite (digests_unfold vs dig _ _ Hscan) in Hre.
  pose proof (collision_rehashable vs dig Hdig _ _ Hs) as Hok.
  destruct Hs as (Hnone & _ & _ & Hndc & Hcol).
  destruct (rehash_Ok vs (fallback dig) collision _ _ _ _ Hok Hndc Hre)
    as (_ & _ & Hm & _).
  apply Forall_lookup. intros i [c fb] Hi Hsh. simpl in *.
  assert (Z.of_nat i ∈ collision) as Hin.
  { apply Hcol. exists i, c. split_and!; [done| |].
    - rewrite list_lookup_fmap, Hi. reflexivity.
    - apply Nat.leb_le. exact Hsh. }
  destruct (Hm _ Hin) as [_ Hfree]. unfold fallback in Hfree.
  rewrite Nat2Z.id, Hi in Hfree. simpl in Hfree. apply Hnone. exact Hfree.
Qed.

Lemma resolvable_digests_Ok :
  resolvable dig -> exists ks m, SortOrder.digests vs = Ok (ks, m).
Proof.
  intros [Hnd Hfree].
  destruct (scan_all vs dig Hdig) as (m0 & collision & Hscan & Hs).
  rewrite (digests_unfold vs dig _ _ Hscan).
  pose proof (collision_rehashable vs dig Hdig _ _ Hs) as Hok.
  destruct Hs as (Hnone & _ & _ & Hndc & Hcol).
  (* the digests of a colliding index *)
  assert (forall c, c ∈ collision ->
            exists i d, c = Z.of_nat i /\ dig !! i = Some d
                        /\ shared (map fst dig) (fst d) = true
                        /\ fallback dig c = snd d) as Hat.
  { intros c Hc. apply Hcol in Hc as (i & d & -> & Hi & Ho).
    apply list_lookup_fmap_Some in Hi as (d2 & -> & Hi).
    exists i, d2. split_and!; [done..| |].
    - apply Nat.leb_le. exact Ho.
    - unfold fallback. rewrite Nat2Z.id, Hi. reflexivity. }
  apply (rehash_complete vs (fallback dig)); [assumption| |].
  - intros c Hc. destruct (Hat c Hc) as (i & d & -> & Hi & Hsh & ->).
    apply Hnone. eapply Forall_lookup_1 in Hfree; [|exact Hi]. auto.
  - apply NoDup_fmap_2_strong; [|assumption].
    intros c1 c2 Hc1 Hc2 Heq.
    destruct (Hat c1 Hc1) as (i1 & d1 & -> & Hi1 & Hsh1 & Hf1).
    destruct (Hat c2 Hc2) as (i2 & d2 & -> & Hi2 & Hsh2 & Hf2).
    f_equal. eapply NoDup_lookup; [exact Hnd| |].
    + unfold settled. rewrite list_lookup_fmap, Hi1. simpl.
      rewrite Hsh1. reflexivity.
    + unfold settled. rewrite list_lookup_fmap, Hi2. simpl.
      rewrite Hsh2. congruence.
Qed.

End Resolvable.

Lemma bind_assoc {A B C} (r : result A) (f : A -> result B) (g : B -> result C) :
  ((r ≫= f) ≫= g) = (r ≫= fun a => f a ≫= g).
Proof. destruct r; reflexivity. Qed.

(** Walking the indices [sortValues] returns is visiting the entries they
    point to. *)
Lemma walkIdxs_visitPairs (H : Hash64) kvs idxs ordered (w : hstate H) :
  Forall2 (fun idx kv => exists i, idx = Z.of_nat i /\ kvs !! i = Some kv)
          idxs ordered ->
  SortOrder.walkIdxs (SortOrder.entries H kvs) idxs w = visitPairs H ordered w.
Proof.
  intros Hf. revert w.
  induction Hf as [|idx kv idxs ordered (i & -> & Hi) _ IH]; intros w;
    [reflexivity|].
  simpl. erewrite index_of_nat; cycle 1.
  { unfold SortOrder.entries. rewrite list_lookup_fmap, Hi. reflexivity. }
  rewrite bind_Ok. simpl.
  destruct (SortOrder.visit H (fst kv) w) as [w1|e]; [|reflexivity].
  rewrite !bind_Ok.
  destruct (SortOrder.visit H (snd kv) w1) as [w2|e]; [|reflexivity].
  rewrite !bind_Ok. apply IH.
Qed.

(** Two orderings of the same entries with the same, pairwise distinct,
    digests are one ordering. *)
Lemma ordered_unique {A} (g : A -> Z) (l1 : list A) : forall l2,
  l1 ≡ₚ l2 -> map g l1 = map g l2 -> NoDup (map g l1) -> l1 = l2.
Proof.
  induction l1 as [|a l1 IH]; intros [|b l2] Hp Hg Hnd;
    try discriminate; [reflexivity|].
  simpl in Hg. injection Hg as Hab Hg.
  simpl in Hnd. apply NoDup_cons in Hnd as [Ha Hnd].
  assert (a = b) as <-.
  { assert (b ∈ a :: l1) as Hb by (rewrite Hp; left).
    apply elem_of_cons in Hb as [->|Hb]; [reflexivity|].
    exfalso. apply Ha. rewrite Hab.
    apply list_elem_of_fmap. exists b. split; [reflexivity|assumption]. }
  f_equal. apply IH; [|assumption..].
  eapply Permutation_cons_inv. exact Hp.
Qed.

Lemma ordered_Permutation {A} (g : A -> Z) (ordered l : list A) :
  NoDup (map g l) -> map g ordered ≡ₚ map g l ->
  (forall a, a ∈ ordered -> a ∈ l) -> ordered ≡ₚ l.
Proof.
  intros Hnd Hp Hsub.
  assert (NoDup (map g ordered)) as Hndo by (rewrite Hp; exact Hnd).
  apply NoDup_Permutation.
  - eapply NoDup_fmap_1. exact Hndo.
  - eapply NoDup_fmap_1. exact Hnd.
  - intros a. split; [apply Hsub|]. intros Ha.
    assert (g a ∈ map g ordered) as Hga.
    { rewrite Hp. apply list_elem_of_fmap. eauto. }
    apply list_elem_of_fmap in Hga as (b & Hgb & Hb).
    assert (a = b) as ->; [|assumption].
    apply list_elem_of_lookup in Ha as [i Hi].
    pose proof (Hsub b Hb) as Hbl. apply list_elem_of_lookup in Hbl as [j Hj].
    assert (i = j) as ->; [|congruence].
    eapply NoDup_lookup; [exact Hnd| |].
    + rewrite list_lookup_fmap, Hi. reflexivity.
    + rewrite list_lookup_fmap, Hj. simpl. congruence.
Qed.

(** The entries behind a list of digests, found through [m]. *)
Lemma ordered_exists {A} (g : A -> Z) (l : list A) (m : gmap Z Z) :
  (forall i d, map g l !! i = Some d -> m !! d = Some (Z.of_nat i)) ->
  forall ds, (forall d, d ∈ ds -> d ∈ map g l) ->
  exists ordered,
    Forall2 (fun idx a => exists i, idx = Z.of_nat i /\ l !! i = Some a)
            (map (fun d => default 0 (m !! d)) ds) ordered
    /\ map g ordered = ds
    /\ (forall a, a ∈ ordered -> a ∈ l).
Proof.
  intros Hback. induction ds as [|d ds IH]; intros Hin.
  - exists []. split_and!; [constructor|reflexivity|].
    intros a Ha. inversion Ha.
  - destruct IH as (ordered & Hf & Hg & Hsub).
    { intros d' Hd'. apply Hin. right. exact Hd'. }
    assert (d ∈ map g l) as Hd by (apply Hin; left).
    apply list_elem_of_lookup in Hd as [i Hi].
    pose proof (Hback _ _ Hi) as Hm.
    apply list_lookup_fmap_Some in Hi as (a & -> & Ha).
    exists (a :: ordered). split_and!.
    + simpl. constructor; [|exact Hf]. exists i. rewrite Hm. done.
    + simpl. rewrite Hg. reflexivity.
    + intros a' Ha'. apply elem_of_cons in Ha' as [->|Ha'].
      * eapply list_elem_of_lookup_2. exact Ha.
      * apply Hsub. exact Ha'.
Qed.

Lemma mapDigests_spec kvs :
  Forall (fun kv => hashable (fst kv)) kvs ->
  Forall2 (fun v d => SortOrder.k_crc v = Ok (fst d)
                      /\ SortOrder.k_fnv v = Ok (snd d))
          (map (fun kv => SortOrder.keyOf (fst kv)) kvs) (mapDigests kvs).
Proof.
  intros Hh. unfold mapDigests. apply Forall2_fmap, Forall_Forall2_diag.
  eapply Forall_impl; [exact Hh|]. intros kv Hkv. exact Hkv.
Qed.

Lemma settled_mapDigests kvs :
  settled (mapDigests kvs)
  = map (fun kv => settledKey (map fst (mapDigests kvs)) (fst kv)) kvs.
Proof. unfold settled, mapDigests at 2. rewrite map_map. reflexivity. Qed.

Lemma sort_uint64_Permutation ks ks' :
  ks ≡ₚ ks' -> sort_uint64 ks = sort_uint64 ks'.
Proof.
  intros Hp. unfold sort_uint64.
  apply (StronglySorted_unique Z.le).
  - apply StronglySorted_merge_sort; apply _.
  - apply StronglySorted_merge_sort; apply _.
  - rewrite !merge_sort_Permutation. exact Hp.
Qed.

(** When the ordering succeeds, the walk of a map is the visit of its
    entries sorted by their settled digests. *)
Lemma sort_visit_map_sorted kvs ks m :
  Forall (fun kv => hashable (fst kv)) kvs ->
  SortOrder.digests (map (fun kv => SortOrder.keyOf (fst kv)) kvs) = Ok (ks, m) ->
  exists ordered,
    ordered ≡ₚ kvs
    /\ map (fun kv => settledKey (map fst (mapDigests kvs)) (fst kv)) ordered
       = sort_uint64 (settled (mapDigests kvs))
    /\ NoDup (settled (mapDigests kvs))
    /\ forall (H : Hash64) (w : hstate H),
         SortOrder.visit H (VMap kvs) w = visitPairs H ordered w.
Proof.
  intros Hh Hre. pose proof (mapDigests_spec kvs Hh) as Hk.
  destruct (digests_settled _ _ Hk ks m Hre) as (-> & Hnd & Hback).
  set (g := fun kv : Value * Value =>
              settledKey (map fst (mapDigests kvs)) (fst kv)).
  rewrite settled_mapDigests in Hback, Hnd. fold g in Hback, Hnd.
  destruct (ordered_exists g kvs m Hback (sort_uint64 (map g kvs)))
    as (ordered & Hf & Hg & Hsub).
  { intros d. unfold sort_uint64. rewrite merge_sort_Permutation. done. }
  exists ordered. rewrite settled_mapDigests. fold g. split_and!.
  - apply (ordered_Permutation g); [assumption| |assumption].
    rewrite Hg. unfold sort_uint64. apply merge_sort_Permutation.
  - exact Hg.
  - exact Hnd.
  - intros H w. rewrite sort_visit_map.
    unfold SortOrder.keyOrder, SortOrder.sortValues. rewrite Hre, !bind_Ok.
    rewrite settled_mapDigests. fold g.
    apply walkIdxs_visitPairs. exact Hf.
Qed.

(** In src/unnamed/part_001 the enumeration order of a map with hashable
    keys does not show in the code [Hash] returns: both enumerations fail,
    or both give the same code. *)
Theorem sort_map_hash_order_invariant kvs kvs' opts :
  Forall (fun kv => hashable (fst kv)) kvs ->
  kvs ≡ₚ kvs' ->
  code (SortOrder.Hash (VMap kvs) opts) = code (SortOrder.Hash (VMap kvs') opts).
Proof.
  intros Hh Hp.
  assert (Forall (fun kv => hashable (fst kv)) kvs') as Hh'
      by (rewrite <- Hp; exact Hh).
  pose proof (mapDigests_spec kvs Hh) as Hk.
  pose proof (mapDigests_spec kvs' Hh') as Hk'.
  assert (mapDigests kvs ≡ₚ mapDigests kvs') as Hpd
      by (apply fmap_Permutation, Hp).
  assert (map fst (mapDigests kvs) ≡ₚ map fst (mapDigests kvs')) as Hcs
      by (apply fmap_Permutation, Hpd).
  destruct (SortOrder.digests (map (fun kv => SortOrder.keyOf (fst kv)) kvs))
    as [[ks m]|e] eqn:Hre.
  - pose proof (digests_Ok_resolvable _ _ Hk _ _ Hre) as Hres.
    apply (resolvable_Permutation _ _ Hpd) in Hres.
    destruct (resolvable_digests_Ok _ _ Hk' Hres) as (ks' & m' & Hre').
    destruct (sort_visit_map_sorted kvs ks m Hh Hre)
      as (ordered & Hpo & Hg & Hnd & Hvisit).
    destruct (sort_visit_map_sorted kvs' ks' m' Hh' Hre')
      as (ordered' & Hpo' & Hg' & _ & Hvisit').
    assert (ordered = ordered') as <-.
    { apply (ordered_unique
               (fun kv => settledKey (map fst (mapDigests kvs)) (fst kv))).
      - rewrite Hpo, Hpo'. exact Hp.
      - rewrite Hg.
        rewrite (sort_uint64_Permutation _ _ (settled_Permutation _ _ Hpd)).
        rewrite <- Hg'. apply map_ext. intros kv. unfold settledKey.
        rewrite (shared_Permutation _ _ _ Hcs). reflexivity.
      - rewrite Hg. unfold sort_uint64. rewrite merge_sort_Permutation.
        exact Hnd. }
    unfold SortOrder.Hash, sum_walk. rewrite Hvisit, Hvisit'. reflexivity.
  - rewrite (sort_hash_map_order_error kvs opts e Hre). simpl.
    destruct (SortOrder.digests (map (fun kv => SortOrder.keyOf (fst kv)) kvs'))
      as [[ks' m']|e'] eqn:Hre'.
    + pose proof (digests_Ok_resolvable _ _ Hk' _ _ Hre') as Hres.
      symmetry in Hpd. apply (resolvable_Permutation _ _ Hpd) in Hres.
      destruct (resolvable_digests_Ok _ _ Hk Hres) as (ks & m & Hre2).
      rewrite Hre2 in Hre. discriminate.
    + rewrite (sort_hash_map_order_error kvs' opts e' Hre'). reflexivity.
Qed.
